(** * Minesweeper AI (minesweeper.py): a shallow embedding in Rocq

    Cells are pairs of integers (coordinates may be negative before the
    bounds check), Python sets of cells are stdpp [gset]s, the knowledge
    base is a Python list of sentence objects, modelled as a [list].
    No sentence object is shared between two list positions (every
    sentence is freshly built before it is appended), so mutating a
    sentence in place is modelled by updating the list.

    Python's [random.choice(seq)] is [seq[randbelow(len(seq))]]; the
    random source is an explicit natural number [k], and the choice is
    [seq[k mod len(seq)]].  The iteration order of a Python set is
    modelled by [elements]. *)

From Stdlib Require Import ZArith Lia Ascii.
From stdpp Require Import base gmap sets list.

Open Scope Z_scope.

Definition cell : Type := (Z * Z)%type.
#[global] Typeclasses Transparent cell.

(** [range(a, b)] *)
Definition range (a b : Z) : list Z := seqZ a (b - a).

(** Python's [set.remove(x)]: raises [KeyError] when [x] is absent. *)
Definition py_remove (x : cell) (s : gset cell) : option (gset cell) :=
  if decide (x ∈ s) then Some (s ∖ {[x]}) else None.

(** Python's [random.choice(seq)], given the random draw [k]. *)
Definition random_choice {A} (l : list A) (k : nat) : option A :=
  l !! (k mod length l)%nat.

(** ** class Minesweeper (the board) *)
Module Minesweeper.

Record t := mk {
  height : Z;
  width : Z;
  mines : gset cell    (** board[i][j] is True exactly for (i, j) in mines *)
}.

Definition is_mine (b : t) (c : cell) : bool := bool_decide (c ∈ mines b).

(** [nearby_mines]: loop over the 3x3 block around [cell]. *)
Definition nearby_mines (b : t) (c : cell) : Z :=
  foldl (fun acc i =>
    foldl (fun acc j =>
      if decide ((i, j) = c) then acc
      else if decide (0 <= i < height b /\ 0 <= j < width b) then
        (if is_mine b (i, j) then acc + 1 else acc)
      else acc) acc (range (c.2 - 1) (c.2 + 2)))
    0 (range (c.1 - 1) (c.1 + 2)).

End Minesweeper.

(** ** class Sentence *)
Module Sentence.

Record t := mk {
  cells : gset cell;
  count : Z
}.

(** [__eq__]: equal cell sets and equal counts. *)
#[global] Instance eq_dec : EqDecision t.
Proof.
  refine (fun s1 s2 => cast_if_and (decide (cells s1 = cells s2))
                                   (decide (count s1 = count s2)));
    destruct s1, s2; simpl in *; congruence.
Defined.

(** [known_mines]: copy every cell when [len(cells) == count]. *)
Definition known_mines (s : t) : gset cell :=
  if decide (Z.of_nat (size (cells s)) = count s) then
    foldl (fun acc c => acc ∪ {[c]}) ∅ (elements (cells s))
  else ∅.

(** [known_safes]: copy every cell when [count == 0]. *)
Definition known_safes (s : t) : gset cell :=
  if decide (count s = 0) then
    foldl (fun acc c => acc ∪ {[c]}) ∅ (elements (cells s))
  else ∅.

(** [mark_mine]: in place; modelled as the updated sentence. *)
Definition mark_mine (c : cell) (s : t) : t :=
  if decide (c ∈ cells s) then mk (cells s ∖ {[c]}) (count s + -1) else s.

Definition mark_safe (c : cell) (s : t) : t :=
  if decide (c ∈ cells s) then mk (cells s ∖ {[c]}) (count s) else s.

End Sentence.

Abbreviation sentence := Sentence.t.

(** ** class MinesweeperAI *)
Module MinesweeperAI.

Record t := mk {
  height : Z;
  width : Z;
  moves_made : gset cell;
  mines : gset cell;
  safes : gset cell;
  knowledge : list sentence
}.

Definition init (h w : Z) : t := mk h w ∅ ∅ ∅ [].

Definition set_knowledge (K : list sentence) (st : t) : t :=
  mk (height st) (width st) (moves_made st) (mines st) (safes st) K.

Definition add_move (c : cell) (st : t) : t :=
  mk (height st) (width st) (moves_made st ∪ {[c]}) (mines st) (safes st) (knowledge st).

Definition add_safe (c : cell) (st : t) : t :=
  mk (height st) (width st) (moves_made st) (mines st) (safes st ∪ {[c]}) (knowledge st).

(** [mark_mine]: [self.mines.add(cell)], then every sentence. *)
Definition mark_mine (c : cell) (st : t) : t :=
  mk (height st) (width st) (moves_made st) (mines st ∪ {[c]}) (safes st)
     (map (Sentence.mark_mine c) (knowledge st)).

Definition mark_safe (c : cell) (st : t) : t :=
  mk (height st) (width st) (moves_made st) (mines st) (safes st ∪ {[c]})
     (map (Sentence.mark_safe c) (knowledge st)).

(** Step 3: the cells around [c] that are on the board. *)
Definition surrounding_cells (st : t) (c : cell) : gset cell :=
  foldl (fun acc i =>
    foldl (fun acc j =>
      if decide ((i, j) = c) then acc
      else if decide (0 <= i < height st /\ 0 <= j < width st) then acc ∪ {[(i, j)]}
      else acc) acc (range (c.2 - 1) (c.2 + 2)))
    ∅ (range (c.1 - 1) (c.1 + 2)).

(** Step 3: [for cell in surrounding_cells: ...] removing known mines
    (decrementing the count) and known safes; a cell that is both a
    known mine and a known safe is removed twice, raising [KeyError]. *)
Definition build_step (st : t) (acc : option (gset cell * Z)) (c : cell)
    : option (gset cell * Z) :=
  acc ≫= fun '(cs, n) =>
    (if decide (c ∈ mines st) then
       cs' ← py_remove c cs; Some (cs', n + -1)
     else Some (cs, n)) ≫= fun '(cs, n) =>
    if decide (c ∈ safes st) then
      cs' ← py_remove c cs; Some (cs', n)
    else Some (cs, n).

Definition build_sentence (st : t) (surr : gset cell) (count : Z)
    : option (gset cell * Z) :=
  foldl (build_step st) (Some (surr, count)) (elements surr).

(** Steps 1 to 3 of [add_knowledge]. *)
Definition add_knowledge_prelude (st : t) (c : cell) (count : Z) : option t :=
  let st := add_move c st in
  let st := add_safe c st in
  let st := mark_safe c st in
  let surr := surrounding_cells st c in
  '(cs, n) ← build_sentence st surr count;
  Some (set_knowledge (knowledge st ++ [Sentence.mk cs n]) st).

(** Step 4, mark phase: [for sentence in self.knowledge] (the list is
    not resized, so iteration is by index); [known_mines] is taken
    before marking, [known_safes] after the mines of the same sentence
    were marked. The second component collects [cells_changed]. *)
Definition mark_cells (mark : cell -> t -> t) (stch : t * gset cell) (cs : gset cell)
    : t * gset cell :=
  foldl (fun '(st, ch) c => (mark c st, ch ∪ {[c]})) stch (elements cs).

Definition mark_sentence_at (stch : t * gset cell) (i : nat) : t * gset cell :=
  match knowledge stch.1 !! i with
  | None => stch
  | Some s =>
      let stch := mark_cells mark_mine stch (Sentence.known_mines s) in
      match knowledge stch.1 !! i with
      | None => stch
      | Some s' => mark_cells mark_safe stch (Sentence.known_safes s')
      end
  end.

Definition mark_phase (st : t) : t * gset cell :=
  foldl mark_sentence_at (st, ∅) (seq 0 (length (knowledge st))).

(** Step 5: every ordered pair (sentence1, sentence2). *)
Definition derive_new (K : list sentence) : list sentence :=
  flat_map (fun s1 =>
    flat_map (fun s2 =>
      if decide (Sentence.cells s1 ⊆ Sentence.cells s2 /\
                 Sentence.cells s1 <> Sentence.cells s2)
      then [Sentence.mk (Sentence.cells s2 ∖ Sentence.cells s1)
                        (Sentence.count s2 - Sentence.count s1)]
      else []) K) K.

(** Appending the new sentences not already present; [changes_made]. *)
Definition append_new (K : list sentence) (new : list sentence) : list sentence * nat :=
  foldl (fun '(K, n) s => if decide (s ∈ K) then (K, n) else (K ++ [s], S n))
    (K, 0%nat) new.

Definition derive_phase (K : list sentence) : list sentence * nat :=
  append_new K (derive_new K).

(** One pass of [while counter == 0]; [true] when the loop exits. *)
Definition closure_step (st : t) : t * bool :=
  let '(st1, ch) := mark_phase st in
  let '(K2, changes) := derive_phase (knowledge st1) in
  (set_knowledge K2 st1, bool_decide (size ch = 0%nat /\ changes = 0%nat)).

(** The closure loop, with fuel ([None]: fuel exhausted). *)
Fixpoint closure (fuel : nat) (st : t) : option t :=
  match fuel with
  | O => None
  | S f => let '(st', done) := closure_step st in
           if done then Some st' else closure f st'
  end.

(** Python's [list.remove(x)]: first element equal to [x]; [ValueError]
    when there is none. *)
Fixpoint list_remove (x : sentence) (K : list sentence) : option (list sentence) :=
  match K with
  | [] => None
  | y :: K' => if decide (y = x) then Some K'
               else K'' ← list_remove x K'; Some (y :: K'')
  end.

Definition is_empty (s : sentence) : bool := bool_decide (size (Sentence.cells s) = 0%nat).

(** [tracker]: the number of sentences with no cell. *)
Definition count_empty (K : list sentence) : Z :=
  foldl (fun tr s => if is_empty s then tr + 1 else tr) 0 K.

(** [for sentence in self.knowledge: ... self.knowledge.remove(sentence)]:
    Python's list iterator advances its index past a removed element.
    At most [n] iterations, [n] the length of the list when the loop starts. *)
Fixpoint remove_pass (n : nat) (i : nat) (K : list sentence) (tracker : Z)
    : option (list sentence * Z) :=
  match n with
  | O => Some (K, tracker)
  | S n' =>
      match K !! i with
      | None => Some (K, tracker)
      | Some s =>
          if is_empty s then
            K' ← list_remove s K; remove_pass n' (S i) K' (tracker + -1)
          else remove_pass n' (S i) K tracker
      end
  end.

(** [while tracker != 0], with fuel. *)
Fixpoint remove_empty_loop (fuel : nat) (K : list sentence) (tracker : Z)
    : option (list sentence) :=
  match fuel with
  | O => None
  | S f => if decide (tracker <> 0) then
             '(K', t') ← remove_pass (length K) 0 K tracker;
             remove_empty_loop f K' t'
           else Some K
  end.

(** Removing duplicates: [no_duplicates]. *)
Definition dedup (K : list sentence) : list sentence :=
  foldl (fun acc s => if decide (s ∈ acc) then acc else acc ++ [s]) [] K.

(** [add_knowledge(cell, count)]; [None] on an exception or when the
    fuel of a while loop runs out. *)
Definition add_knowledge (fuel : nat) (st : t) (c : cell) (count : Z) : option t :=
  st1 ← add_knowledge_prelude st c count;
  st2 ← closure fuel st1;
  K ← remove_empty_loop fuel (knowledge st2) (count_empty (knowledge st2));
  Some (set_knowledge (dedup K) st2).

(** [make_safe_move]; returns the (unchanged) state as well. *)
Definition make_safe_move (st : t) (k : nat) : option cell * t :=
  let safe_moves := safes st ∖ moves_made st in
  if decide (size safe_moves = 0%nat) then (None, st)
  else (random_choice (elements safe_moves) k, st).

Definition all_cells (st : t) : gset cell :=
  foldl (fun acc i => foldl (fun acc j => acc ∪ {[(i, j)]}) acc (range 0 (width st)))
    ∅ (range 0 (height st)).

(** [make_random_move]. *)
Definition make_random_move (st : t) (k : nat) : option cell * t :=
  let possible_moves := all_cells st ∖ moves_made st ∖ mines st in
  if decide (size possible_moves = 0%nat) then (None, st)
  else (random_choice (elements possible_moves) k, st).

End MinesweeperAI.

Import MinesweeperAI.

(** * Properties stated about the agent *)

(** The known sets of [st'] contain those of [st]. *)
Definition grows (st st' : t) : Prop :=
  moves_made st ⊆ moves_made st' /\ mines st ⊆ mines st' /\ safes st ⊆ safes st'.

(** No sentence of the knowledge base mentions a known mine or safe. *)
Definition resolved_disjoint (st : t) : Prop :=
  forall s, s ∈ knowledge st -> Sentence.cells s ## mines st ∪ safes st.

(** The sentences of a list that have no equal sentence before them
    ([pre] is the part of the list already passed), in order. *)
Fixpoint first_occurrences_from (pre : list sentence) (l : list sentence) : list sentence :=
  match l with
  | [] => []
  | s :: l' => (if decide (s ∈ pre) then [] else [s]) ++ first_occurrences_from (pre ++ [s]) l'
  end.

Definition first_occurrences (l : list sentence) : list sentence :=
  first_occurrences_from [] l.

(** The subset-inference scenario: A = (0,0), B = (0,1), C = (0,2) on a
    1 x 3 board, with S1 = {A, B} = 1 and S2 = {A, B, C} = 2. *)
Definition ex_S1 : sentence := Sentence.mk {[(0, 0); (0, 1)]} 1.
Definition ex_S2 : sentence := Sentence.mk {[(0, 0); (0, 1); (0, 2)]} 2.
Definition ex_agent : t := set_knowledge [ex_S1; ex_S2] (init 1 3).

(** A sentence is true on a board with mines [B] when exactly [count]
    of its cells are mines. *)
Definition sentence_true (B : gset cell) (s : sentence) : Prop :=
  Sentence.count s = Z.of_nat (size (Sentence.cells s ∩ B)).

(** Everything the agent knows is true of the board. *)
Definition sound (b : Minesweeper.t) (st : t) : Prop :=
  mines st ⊆ Minesweeper.mines b /\ safes st ## Minesweeper.mines b /\
  forall s, s ∈ knowledge st -> sentence_true (Minesweeper.mines b) s.

(** The preconditions of a call [add_knowledge(cell, count)] made by the
    game runner: the agent plays on the board's dimensions, the cell was
    not added before, it is not a mine, and [count] is the board's
    [nearby_mines(cell)]. *)
Definition valid_call (b : Minesweeper.t) (st : t) (c : cell) (n : Z) : Prop :=
  height st = Minesweeper.height b /\ width st = Minesweeper.width b /\
  (c ∉ moves_made st) /\ (c ∉ Minesweeper.mines b) /\ n = Minesweeper.nearby_mines b c.

(** Agents reached from a fresh agent by valid [add_knowledge] calls
    that returned. *)
Inductive reachable (b : Minesweeper.t) : t -> Prop :=
| reachable_init :
    reachable b (init (Minesweeper.height b) (Minesweeper.width b))
| reachable_add (st st' : t) (c : cell) (n : Z) (fuel : nat) :
    reachable b st -> valid_call b st c n -> add_knowledge fuel st c n = Some st' ->
    reachable b st'.

(** The 3x3 block of [nearby_mines] and [add_knowledge], row by row. *)
Definition block (c : cell) : list cell :=
  flat_map (fun i => map (fun j => (i, j)) (range (c.2 - 1) (c.2 + 2)))
    (range (c.1 - 1) (c.1 + 2)).

(** The end-to-end board of the spec: 1 x 3 with a mine at (0,2). *)
Definition ex_board : Minesweeper.t := Minesweeper.mk 1 3 {[(0, 2)]}.

(** The cells some sentence of the knowledge base mentions. *)
Definition knowledge_cells (K : list sentence) : gset cell := ⋃ (map Sentence.cells K).

(** Every subset of the cells of a list. *)
Fixpoint subsets (l : list cell) : list (gset cell) :=
  match l with
  | [] => [∅]
  | x :: l' => subsets l' ++ map (fun C => {[x]} ∪ C) (subsets l')
  end.

(** The subsets of the mentioned cells that are not yet the cell set of
    a sentence. *)
Definition unseen_cell_sets (K : list sentence) : nat :=
  length (filter (fun C => C ∉ map Sentence.cells K) (subsets (elements (knowledge_cells K)))).

(** Python's [seq[i]] on a list: a negative index counts from the end;
    [IndexError] ([None]) out of range. *)
Definition py_index {A} (l : list A) (i : Z) : option A :=
  if decide (0 <= i) then l !! Z.to_nat i
  else if decide (- Z.of_nat (length l) <= i) then l !! Z.to_nat (Z.of_nat (length l) + i)
  else None.

(** Python's [seq[i] = x] on a list. *)
Definition py_assign {A} (l : list A) (i : Z) (x : A) : option (list A) :=
  if decide (0 <= i) then
    (if decide (i < Z.of_nat (length l)) then Some (<[Z.to_nat i := x]> l) else None)
  else if decide (- Z.of_nat (length l) <= i) then
    Some (<[Z.to_nat (Z.of_nat (length l) + i) := x]> l)
  else None.

(** Python's [random.randrange(n)], given the random draw [k];
    [ValueError] when the range is empty. *)
Definition randrange (n : Z) (k : nat) : option Z :=
  if decide (0 < n) then Some (Z.of_nat k mod n) else None.

(** ** class Minesweeper, with its [board] of booleans *)
Module MinesweeperBoard.

Record t := mk {
  height : Z;
  width : Z;
  mines : gset cell;
  board : list (list bool);
  mines_found : gset cell
}.

(** [self.board]: [height] rows of [width] times [False]. *)
Definition empty_board (h w : Z) : list (list bool) :=
  foldl (fun board _ => board ++ [foldl (fun row _ => row ++ [false]) [] (range 0 w)])
    [] (range 0 h).

(** [while len(self.mines) != mines]: one iteration per pair of draws
    (for [randrange(height)] and [randrange(width)]); [None] when an
    exception is raised or the draws run out. *)
Fixpoint place_mines (h w n : Z) (draws : list (nat * nat)) (ms : gset cell)
    (board : list (list bool)) : option (gset cell * list (list bool)) :=
  if decide (Z.of_nat (size ms) <> n) then
    match draws with
    | [] => None
    | (ki, kj) :: draws' =>
        i ← randrange h ki; j ← randrange w kj;
        row ← py_index (A:=list bool) board i; v ← py_index (A:=bool) row j;
        if (v : bool) then place_mines h w n draws' ms board
        else
          row' ← py_assign row j true; board' ← py_assign board i row';
          place_mines h w n draws' (ms ∪ {[(i, j)]}) board'
    end
  else Some (ms, board).

(** [__init__(height, width, mines)] *)
Definition init (h w n : Z) (draws : list (nat * nat)) : option t :=
  '(ms, board) ← place_mines h w n draws ∅ (empty_board h w);
  Some (mk h w ms board ∅).




(** [is_mine(cell)]: [self.board[i][j]]. *)
Definition is_mine (g : t) (c : cell) : option bool :=
  row ← py_index (board g) c.1; py_index row c.2.

(** [nearby_mines(cell)], reading [self.board[i][j]]. *)
Definition nearby_mines (g : t) (c : cell) : option Z :=
  foldl (fun (acc : option Z) i =>
    foldl (fun (acc : option Z) j =>
      count ← acc;
      if decide ((i, j) = c) then Some count
      else if decide (0 <= i < height g /\ 0 <= j < width g) then
        row ← py_index (A:=list bool) (board g) i; v ← py_index (A:=bool) row j;
        Some (if (v : bool) then count + 1 else count)
      else Some count) acc (range (c.2 - 1) (c.2 + 2)))
    (Some 0) (range (c.1 - 1) (c.1 + 2)).

(** [won()] *)
Definition won (g : t) : bool := bool_decide (mines_found g = mines g).

(** The mine set and dimensions, as the agent's board model has them. *)
Definition to_minesweeper (g : t) : Minesweeper.t :=
  Minesweeper.mk (height g) (width g) (mines g).

End MinesweeperBoard.


(** The board rows agree with the mine set inside the bounds. *)
Definition board_ok (h w : Z) (ms : gset cell) (board : list (list bool)) : Prop :=
  length board = Z.to_nat h /\
  (forall k row, board !! k = Some row -> length row = Z.to_nat w) /\
  (forall p, p ∈ ms -> 0 <= p.1 < h /\ 0 <= p.2 < w) /\
  (forall i j, 0 <= i < h -> 0 <= j < w ->
     exists row, board !! Z.to_nat i = Some row /\
                 row !! Z.to_nat j = Some (bool_decide ((i, j) ∈ ms))).

(** The agent reasons only about cells on its board: every known mine
    and every cell of a sentence is within [height] and [width]. *)
Definition on_board (st : t) (x : cell) : Prop :=
  0 <= x.1 < height st /\ 0 <= x.2 < width st.

Definition knowledge_on_board (st : t) : Prop :=
  (forall x, x ∈ mines st -> on_board st x) /\
  (forall s x, s ∈ knowledge st -> x ∈ Sentence.cells s -> on_board st x).

(** * Proofs *)


Lemma foldl_add_cells (l : list cell) (acc : gset cell) :
  foldl (fun acc c => acc ∪ {[c]}) acc l = acc ∪ list_to_set l.
Proof.
  revert acc. induction l as [|x l IH]; intros acc; simpl.
  - set_solver.
  - rewrite IH. set_solver.
Qed.

Lemma foldl_add_elements (X : gset cell) :
  foldl (fun acc c => acc ∪ {[c]}) ∅ (elements X) = X.
Proof. rewrite foldl_add_cells, list_to_set_elements_L. set_solver. Qed.

Lemma random_choice_elem {A} (l : list A) (k : nat) :
  l <> [] -> exists x, random_choice l k = Some x /\ x ∈ l.
Proof.
  intros Hl. unfold random_choice.
  assert (length l <> 0%nat) by (destruct l; simpl; congruence).
  destruct (lookup_lt_is_Some_2 l (k mod length l)%nat) as [x Hx].
  { apply Nat.mod_upper_bound; lia. }
  exists x. split; [done|]. by eapply list_elem_of_lookup_2.
Qed.

Lemma lookup_seq_map {A} (l : list A) :
  map (fun k => l !! k) (seq 0 (length l)) = map Some l.
Proof.
  induction l as [|x l IH]; [done|].
  simpl. f_equal. rewrite <- seq_shift, map_map. simpl. exact IH.
Qed.

Lemma random_choice_seq {A} (l : list A) :
  map (random_choice l) (seq 0 (length l)) = map Some l.
Proof.
  rewrite <- lookup_seq_map. apply map_ext_in. intros k Hk.
  apply in_seq in Hk. unfold random_choice. rewrite Nat.mod_small; [done|lia].
Qed.

Lemma elements_nil_empty (X : gset cell) : elements X = [] <-> X = ∅.
Proof.
  split.
  - intros H. apply set_eq. intros x. rewrite <- elem_of_elements, H. set_solver.
  - intros ->. apply elements_empty.
Qed.

Lemma size_zero_empty (X : gset cell) : size X = 0%nat <-> X = ∅.
Proof.
  split; [intros H; apply leibniz_equiv, size_empty_inv, H|intros ->; apply size_empty].
Qed.

(** Membership in a [foldl] adding [(i, j)] for [j] in a list. *)
Lemma foldl_row_elem (i : Z) (l : list Z) (acc : gset cell) (x : cell) :
  x ∈ foldl (fun acc j => acc ∪ {[(i, j)]}) acc l <-> x ∈ acc \/ (x.1 = i /\ x.2 ∈ l).
Proof.
  revert acc. induction l as [|j l IH]; intros acc; simpl.
  - set_solver.
  - rewrite IH, elem_of_union, elem_of_singleton, elem_of_cons.
    destruct x as [x1 x2]; simpl. split; [intros [[?|?]|[? ?]]; simplify_eq; naive_solver
    |intros [?|[? [?|?]]]; subst; naive_solver].
Qed.

Lemma all_cells_elem (st : t) (x : cell) :
  x ∈ all_cells st <-> 0 <= x.1 < height st /\ 0 <= x.2 < width st.
Proof.
  unfold all_cells, range. rewrite !Z.sub_0_r.
  assert (Hgen : forall (l : list Z) (acc : gset cell), x ∈ foldl (fun acc i =>
      foldl (fun acc j => acc ∪ {[(i, j)]}) acc (seqZ 0 (width st))) acc l <->
      x ∈ acc \/ (x.1 ∈@{list Z} l /\ x.2 ∈ seqZ 0 (width st))).
  { intros l acc. revert acc.
    induction l as [|i l IH]; intros acc; simpl.
    - set_solver.
    - rewrite IH, foldl_row_elem, elem_of_cons. naive_solver. }
  rewrite Hgen, !elem_of_seqZ. set_solver.
Qed.

Lemma sentence_mark_mine_twice (c : cell) (s : sentence) :
  Sentence.mark_mine c (Sentence.mark_mine c s) = Sentence.mark_mine c s.
Proof.
  unfold Sentence.mark_mine. destruct (decide (c ∈ Sentence.cells s)); simpl.
  - rewrite decide_False; [done|set_solver].
  - rewrite decide_False; done.
Qed.

Lemma sentence_mark_safe_twice (c : cell) (s : sentence) :
  Sentence.mark_safe c (Sentence.mark_safe c s) = Sentence.mark_safe c s.
Proof.
  unfold Sentence.mark_safe. destruct (decide (c ∈ Sentence.cells s)); simpl.
  - rewrite decide_False; [done|set_solver].
  - rewrite decide_False; done.
Qed.

(** C4: [known_mines] is the whole cell set when [count = len(cells)]
    and empty otherwise; [known_safes] is the whole cell set when
    [count = 0] and empty otherwise.  Both are pure functions of the
    sentence: they return a fresh set and leave the sentence as it is. *)
Theorem sentence_known_mines_known_safes (s : sentence) :
  Sentence.known_mines s =
    (if decide (Z.of_nat (size (Sentence.cells s)) = Sentence.count s)
     then Sentence.cells s else ∅) /\
  Sentence.known_safes s =
    (if decide (Sentence.count s = 0) then Sentence.cells s else ∅).
Proof.
  unfold Sentence.known_mines, Sentence.known_safes.
  rewrite !foldl_add_elements. done.
Qed.

(** C7: [MinesweeperAI.mark_mine] and [MinesweeperAI.mark_safe] are
    idempotent: marking a cell twice gives the same agent state (sets
    and every sentence) as marking it once. *)
Theorem ai_mark_idempotent (c : cell) (st : t) :
  mark_mine c (mark_mine c st) = mark_mine c st /\
  mark_safe c (mark_safe c st) = mark_safe c st.
Proof.
  unfold mark_mine, mark_safe; simpl. rewrite !map_map. split; f_equal.
  - set_solver.
  - apply map_ext. apply sentence_mark_mine_twice.
  - set_solver.
  - apply map_ext. apply sentence_mark_safe_twice.
Qed.

(** C6: [make_safe_move] leaves the state unchanged, returns [None]
    exactly when [safes - moves_made] is empty and otherwise an element
    of it; with safes = {(0,0), (0,1)} and moves_made = {(0,0)} it
    returns (0,1) whatever the random draw, and with
    safes ⊆ moves_made it returns [None]. *)
Theorem make_safe_move_spec (st : t) (k : nat) :
  (make_safe_move st k).2 = st /\
  (safes st ∖ moves_made st = ∅ -> (make_safe_move st k).1 = None) /\
  (safes st ∖ moves_made st <> ∅ ->
     exists c, (make_safe_move st k).1 = Some c /\ c ∈ safes st ∖ moves_made st) /\
  (forall h w ms K,
     (make_safe_move (mk h w {[(0, 0)]} ms {[(0, 0); (0, 1)]} K) k).1 = Some (0, 1)) /\
  (safes st ⊆ moves_made st -> (make_safe_move st k).1 = None).
Proof.
  unfold make_safe_move. split_and!.
  - by case_decide.
  - intros He. rewrite He, size_empty. by rewrite decide_True.
  - intros Hne. rewrite decide_False.
    2:{ by rewrite size_zero_empty. }
    simpl. destruct (random_choice_elem (elements (safes st ∖ moves_made st)) k)
      as [x [Hx Hin]].
    { by rewrite elements_nil_empty. }
    exists x. split; [done|]. by apply elem_of_elements.
  - intros h w ms K. cbn [safes moves_made].
    assert (Hd : ({[(0, 0); (0, 1)]} : gset cell) ∖ {[(0, 0)]} = {[(0, 1)]}).
    { apply set_eq. intros x. rewrite elem_of_difference, !elem_of_union,
        !elem_of_singleton. split; [intros [[->| ->] ?]; done|intros ->; split; [by right|intros H; inversion H]]. }
    rewrite Hd, size_singleton, decide_False; [|done]. simpl.
    rewrite elements_singleton. unfold random_choice.
    change (length [(0, 1)]) with 1%nat. by rewrite Nat.mod_1_r.
  - intros Hsub. assert (He : safes st ∖ moves_made st = ∅) by set_solver.
    rewrite He, size_empty. by rewrite decide_True.
Qed.

(** C8: [make_random_move] leaves the state unchanged; with
    possible = all_cells - moves_made - mines (all_cells being every
    cell of the height x width board) it returns [None] exactly when
    possible is empty and otherwise an element of it; the draw is
    uniform: the [len(possible)] equally likely outcomes of
    [randbelow(len(possible))] give each element of possible exactly
    once. *)
Theorem make_random_move_spec (st : t) (k : nat) :
  let possible := all_cells st ∖ moves_made st ∖ mines st in
  (forall x, x ∈ all_cells st <-> 0 <= x.1 < height st /\ 0 <= x.2 < width st) /\
  (make_random_move st k).2 = st /\
  (possible = ∅ -> (make_random_move st k).1 = None) /\
  (possible <> ∅ -> exists c, (make_random_move st k).1 = Some c /\ c ∈ possible) /\
  (possible <> ∅ ->
     NoDup (elements possible) /\
     (forall x, x ∈ elements possible <-> x ∈ possible) /\
     map (fun k => (make_random_move st k).1) (seq 0 (length (elements possible)))
       = map Some (elements possible)).
Proof.
  intros possible. unfold make_random_move. fold possible. split_and!.
  - apply all_cells_elem.
  - by case_decide.
  - intros He. rewrite He, size_empty. by rewrite decide_True.
  - intros Hne. rewrite decide_False.
    2:{ by rewrite size_zero_empty. }
    simpl. destruct (random_choice_elem (elements possible) k) as [x [Hx Hin]].
    { by rewrite elements_nil_empty. }
    exists x. split; [done|]. by apply elem_of_elements.
  - intros Hne. split_and!.
    + apply NoDup_elements.
    + intros x. apply elem_of_elements.
    + rewrite <- random_choice_seq. apply map_ext. intros j.
      rewrite decide_False; [done|]. by rewrite size_zero_empty.
Qed.

(** ** Properties carried through the mark phase and the closure loop *)
Section Preserved.

Variable P : t -> Prop.
Hypothesis P_mark_mine : forall c st, P st -> P (mark_mine c st).
Hypothesis P_mark_safe : forall c st, P st -> P (mark_safe c st).

Lemma mark_cells_preserved (mark : cell -> t -> t) (stch : t * gset cell) (cs : gset cell) :
  (forall c st, P st -> P (mark c st)) -> P stch.1 -> P (mark_cells mark stch cs).1.
Proof.
  intros Hm. unfold mark_cells. generalize (elements cs). intros l.
  revert stch. induction l as [|c l IH]; intros [st ch] Hp; simpl; [done|].
  apply IH. simpl. by apply Hm.
Qed.

Lemma mark_sentence_at_preserved (stch : t * gset cell) (i : nat) :
  P stch.1 -> P (mark_sentence_at stch i).1.
Proof.
  intros Hp. unfold mark_sentence_at.
  destruct (knowledge stch.1 !! i) as [s|]; [|done]. cbv zeta.
  assert (H1 : P (mark_cells mark_mine stch (Sentence.known_mines s)).1)
    by (apply mark_cells_preserved; auto).
  destruct (knowledge _ !! i); [|done]. by apply mark_cells_preserved.
Qed.

Lemma foldl_mark_sentence_at_preserved (l : list nat) (stch : t * gset cell) :
  P stch.1 -> P (foldl mark_sentence_at stch l).1.
Proof.
  revert stch. induction l as [|i l IH]; intros stch Hp; simpl; [done|].
  apply IH. by apply mark_sentence_at_preserved.
Qed.

Lemma mark_phase_preserved (st : t) : P st -> P (mark_phase st).1.
Proof. intros Hp. unfold mark_phase. by apply foldl_mark_sentence_at_preserved. Qed.

Hypothesis P_derive : forall st, P st -> P (set_knowledge (derive_phase (knowledge st)).1 st).

Lemma closure_step_preserved (st : t) : P st -> P (closure_step st).1.
Proof.
  intros Hp. unfold closure_step.
  pose proof (mark_phase_preserved st Hp) as H1.
  destruct (mark_phase st) as [st1 ch]. simpl in H1.
  pose proof (P_derive st1 H1) as H2.
  destruct (derive_phase (knowledge st1)) as [K2 n]. exact H2.
Qed.

Lemma closure_preserved (fuel : nat) (st st' : t) :
  P st -> closure fuel st = Some st' -> P st'.
Proof.
  revert st. induction fuel as [|f IH]; intros st Hp Hc; simpl in Hc; [done|].
  pose proof (closure_step_preserved st Hp) as H1.
  destruct (closure_step st) as [st1 done]. simpl in H1.
  destruct done; [by injection Hc as <-|]. by apply (IH st1).
Qed.

End Preserved.

(** ** The derive phase *)

Lemma append_new_elem (new K : list sentence) (n : nat) (x : sentence) :
  x ∈ (foldl (fun '(K, n) s => if decide (s ∈ K) then (K, n) else (K ++ [s], S n))
         (K, n) new).1 <-> x ∈ K \/ x ∈ new.
Proof.
  revert K n. induction new as [|s new IH]; intros K n; simpl.
  - rewrite elem_of_nil. tauto.
  - destruct (decide (s ∈ K)).
    + rewrite IH, elem_of_cons. naive_solver.
    + rewrite IH. set_solver.
Qed.

Lemma derive_phase_elem (K : list sentence) (x : sentence) :
  x ∈ (derive_phase K).1 <->
  x ∈ K \/
  exists s1 s2, s1 ∈ K /\ s2 ∈ K /\
    Sentence.cells s1 ⊆ Sentence.cells s2 /\ Sentence.cells s1 <> Sentence.cells s2 /\
    x = Sentence.mk (Sentence.cells s2 ∖ Sentence.cells s1)
                    (Sentence.count s2 - Sentence.count s1).
Proof.
  unfold derive_phase, append_new. rewrite append_new_elem. apply or_iff_compat_l.
  unfold derive_new. rewrite list_elem_of_In, in_flat_map. split.
  - intros [s1 [H1 H]]. apply in_flat_map in H as [s2 [H2 H]].
    case_decide as Hd; [|done]. destruct H as [<-|[]].
    exists s1, s2. rewrite !list_elem_of_In. naive_solver.
  - intros (s1 & s2 & H1 & H2 & Hsub & Hne & ->). exists s1.
    rewrite <- list_elem_of_In. split; [done|].
    apply in_flat_map. exists s2. rewrite <- list_elem_of_In. split; [done|].
    rewrite decide_True; [by left|done].
Qed.

Lemma derive_phase_appended (K : list sentence) :
  exists K', derive_phase K = (K ++ K', length K') /\ NoDup K' /\
             (forall x, x ∈ K' -> x ∉ K).
Proof.
  unfold derive_phase, append_new. generalize (derive_new K) as new.
  intros new. cut (forall K1 K0, NoDup K1 -> (forall x, x ∈ K1 -> x ∉ K0) ->
    exists K', foldl (fun '(K, n) s =>
      if decide (s ∈ K) then (K, n) else (K ++ [s], S n)) (K0 ++ K1, length K1) new
      = (K0 ++ K1 ++ K', length (K1 ++ K')) /\ NoDup (K1 ++ K') /\
      (forall x, x ∈ K1 ++ K' -> x ∉ K0)).
  { intros H. destruct (H [] K) as [K' HK']; [constructor|set_solver|].
    exists K'. by rewrite app_nil_r in HK'. }
  induction new as [|s new IH]; intros K1 K0 Hnd Hout; simpl.
  - exists []. rewrite !app_nil_r. by split_and!.
  - destruct (decide (s ∈ K0 ++ K1)) as [Hin|Hin]; [by apply IH|].
    destruct (IH (K1 ++ [s]) K0) as [K' (HK' & Hnd' & Hout')].
    + apply NoDup_app. split_and!; [done| |apply NoDup_singleton].
      intros y Hy ->%list_elem_of_singleton. apply Hin. set_solver.
    + intros x Hx. apply elem_of_app in Hx as [Hx|Hx%list_elem_of_singleton];
        [by apply Hout|subst; set_solver].
    + exists (s :: K').
      assert (E1 : (K0 ++ K1) ++ [s] = K0 ++ (K1 ++ [s])) by (by rewrite app_assoc).
      assert (E2 : S (length K1) = length (K1 ++ [s])) by (rewrite length_app; simpl; lia).
      rewrite E1, E2, HK'. rewrite <- !app_assoc in *. simpl in *. by split_and!.
Qed.

(** ** Building the new sentence (step 3) *)

Lemma build_fold_none (st : t) (l : list cell) : foldl (build_step st) None l = None.
Proof. induction l; simpl; auto. Qed.

Lemma build_fold_some (st : t) (l : list cell) (cs cs' : gset cell) (n n' : Z) :
  foldl (build_step st) (Some (cs, n)) l = Some (cs', n') ->
  cs' = cs ∖ ((mines st ∪ safes st) ∩ list_to_set l) /\
  n' = n - Z.of_nat (length (filter (fun x => x ∈ mines st) l)).
Proof.
  revert cs n. induction l as [|x l IH]; intros cs n H.
  - simpl in H. injection H as <- <-. split; [set_solver|simpl; lia].
  - change (foldl (build_step st) (build_step st (Some (cs, n)) x) l = Some (cs', n'))
      in H. rewrite filter_cons.
    destruct (build_step st (Some (cs, n)) x) as [[cs1 n1]|] eqn:Er;
      [|by rewrite build_fold_none in H].
    apply IH in H as [-> ->].
    unfold build_step, py_remove in Er. simpl in Er.
    destruct (decide (x ∈ mines st)) as [Hm|Hm].
    + destruct (decide (x ∈ cs)) as [Hc|Hc]; simpl in Er; [|done].
      destruct (decide (x ∈ safes st)) as [Hs|Hs].
      * rewrite decide_False in Er by set_solver. done.
      * injection Er as <- <-. split; [set_solver|simpl; lia].
    + simpl in Er. destruct (decide (x ∈ safes st)) as [Hs|Hs].
      * destruct (decide (x ∈ cs)) as [Hc|Hc]; simpl in Er; [|done].
        injection Er as <- <-. split; [set_solver|lia].
      * injection Er as <- <-. split; [set_solver|lia].
Qed.

(** ** Removing the empty sentences and the duplicates (cleanup) *)

Lemma list_remove_split (x : sentence) (K K' : list sentence) :
  list_remove x K = Some K' -> exists K1 K2, K = K1 ++ x :: K2 /\ K' = K1 ++ K2.
Proof.
  revert K'. induction K as [|y K IH]; intros K' H; simpl in H; [done|].
  destruct (decide (y = x)) as [->|Hne].
  - injection H as <-. by exists [], K.
  - destruct (list_remove x K) as [K''|] eqn:E; [|done]. injection H as <-.
    destruct (IH K'' eq_refl) as (K1 & K2 & -> & ->). by exists (y :: K1), K2.
Qed.

Lemma is_empty_spec (s : sentence) : is_empty s = true <-> Sentence.cells s = ∅.
Proof. unfold is_empty. rewrite bool_decide_eq_true. apply size_zero_empty. Qed.

Lemma count_empty_foldl (K : list sentence) (tr : Z) :
  foldl (fun tr s => if is_empty s then tr + 1 else tr) tr K =
  tr + Z.of_nat (length (filter (fun s => Sentence.cells s = ∅) K)).
Proof.
  revert tr. induction K as [|s K IH]; intros tr; simpl; [lia|].
  rewrite IH, filter_cons. destruct (is_empty s) eqn:E.
  - apply is_empty_spec in E. rewrite decide_True by done. simpl. lia.
  - rewrite decide_False; [lia|]. intros Hs. apply is_empty_spec in Hs. congruence.
Qed.

Lemma count_empty_spec (K : list sentence) :
  count_empty K = Z.of_nat (length (filter (fun s => Sentence.cells s = ∅) K)).
Proof. unfold count_empty. rewrite count_empty_foldl. lia. Qed.

Lemma remove_pass_inv (n i : nat) (K K' : list sentence) (tr tr' : Z) :
  remove_pass n i K tr = Some (K', tr') -> tr = count_empty K ->
  tr' = count_empty K' /\
  filter (fun s => Sentence.cells s <> ∅) K' = filter (fun s => Sentence.cells s <> ∅) K.
Proof.
  revert i K tr. induction n as [|n IH]; intros i K tr H Htr; simpl in H.
  - by injection H as <- <-.
  - destruct (K !! i) as [s|]; [|by injection H as <- <-].
    destruct (is_empty s) eqn:E; [|by eapply IH].
    destruct (list_remove s K) as [K1|] eqn:Er; [|done]. simpl in H.
    apply list_remove_split in Er as (A & B & -> & ->).
    apply is_empty_spec in E.
    destruct (IH _ _ _ H) as [-> Hf].
    + rewrite Htr, !count_empty_spec, !filter_app, filter_cons, decide_True by done.
      rewrite !length_app. simpl. lia.
    + split; [done|]. rewrite Hf, !filter_app, filter_cons, decide_False; [done|].
      intros Hn. by apply Hn.
Qed.

Lemma filter_none_empty (K : list sentence) :
  length (filter (fun s => Sentence.cells s = ∅) K) = 0%nat ->
  filter (fun s => Sentence.cells s <> ∅) K = K.
Proof.
  induction K as [|s K IH]; intros H; [done|].
  rewrite filter_cons in H |- *. destruct (decide (Sentence.cells s = ∅)); [done|].
  rewrite decide_True by done. by rewrite IH.
Qed.

Lemma remove_empty_loop_filter (fuel : nat) (K K' : list sentence) :
  remove_empty_loop fuel K (count_empty K) = Some K' ->
  K' = filter (fun s => Sentence.cells s <> ∅) K.
Proof.
  revert K. induction fuel as [|f IH]; intros K H; simpl in H; [done|].
  destruct (decide (count_empty K <> 0)) as [Hne|He].
  - destruct (remove_pass (length K) 0 K (count_empty K)) as [[K1 t1]|] eqn:Er; [|done].
    simpl in H. apply remove_pass_inv in Er as [-> Hf]; [|done].
    rewrite <- Hf. by apply IH.
  - injection H as <-. symmetry. apply filter_none_empty.
    rewrite count_empty_spec in He. lia.
Qed.

Lemma dedup_step_spec (l acc pre : list sentence) :
  (forall y, y ∈ acc <-> y ∈ pre) ->
  foldl (fun acc s => if decide (s ∈ acc) then acc else acc ++ [s]) acc l =
  acc ++ first_occurrences_from pre l.
Proof.
  revert acc pre. induction l as [|s l IH]; intros acc pre Hap; simpl.
  - by rewrite app_nil_r.
  - destruct (decide (s ∈ acc)) as [Hs|Hs].
    + rewrite decide_True by (by apply Hap). simpl. apply IH.
      intros y. rewrite Hap, elem_of_app, list_elem_of_singleton. split; [tauto|].
      intros [?| ->]; [done|by apply Hap].
    + rewrite decide_False by (by rewrite <- Hap). simpl.
      rewrite (IH (acc ++ [s]) (pre ++ [s])); [by rewrite <- app_assoc|].
      intros y. by rewrite !elem_of_app, Hap.
Qed.

Lemma dedup_first_occurrences (K : list sentence) : dedup K = first_occurrences K.
Proof. unfold dedup, first_occurrences. by rewrite (dedup_step_spec K [] []). Qed.

Lemma dedup_NoDup_elem (K : list sentence) :
  NoDup (dedup K) /\ (forall y, y ∈ dedup K <-> y ∈ K).
Proof.
  unfold dedup. cut (forall acc, NoDup acc ->
    NoDup (foldl (fun acc s => if decide (s ∈ acc) then acc else acc ++ [s]) acc K) /\
    (forall y, y ∈ foldl (fun acc s => if decide (s ∈ acc) then acc else acc ++ [s]) acc K
               <-> y ∈ acc \/ y ∈ K)).
  { intros H. destruct (H [] (NoDup_nil_2)) as [H1 H2]. split; [done|].
    intros y. rewrite H2, elem_of_nil. tauto. }
  induction K as [|s K IH]; intros acc Hacc; simpl.
  - split; [done|]. intros y. rewrite elem_of_nil. tauto.
  - destruct (decide (s ∈ acc)) as [Hs|Hs].
    + destruct (IH acc Hacc) as [H1 H2]. split; [done|].
      intros y. rewrite H2, elem_of_cons. naive_solver.
    + destruct (IH (acc ++ [s])) as [H1 H2].
      { apply NoDup_app. split_and!; [done| |apply NoDup_singleton].
        intros y Hy ->%list_elem_of_singleton. done. }
      split; [done|]. intros y. rewrite H2, elem_of_app, list_elem_of_singleton,
        elem_of_cons. tauto.
Qed.

Lemma elem_of_map {A B} (f : A -> B) (l : list A) (y : B) :
  y ∈ map f l <-> exists x, y = f x /\ x ∈ l.
Proof.
  rewrite list_elem_of_In, in_map_iff. split.
  - intros [x [<- Hx]]. exists x. by rewrite list_elem_of_In.
  - intros [x [-> Hx]]. exists x. by rewrite <- list_elem_of_In.
Qed.

(** ** Decomposing [add_knowledge] *)

Lemma add_knowledge_prelude_inv (st st1 : t) (c : cell) (n : Z) :
  add_knowledge_prelude st c n = Some st1 ->
  let st0 := mark_safe c (add_safe c (add_move c st)) in
  exists cs n', build_sentence st0 (surrounding_cells st0 c) n = Some (cs, n') /\
    st1 = set_knowledge (knowledge st0 ++ [Sentence.mk cs n']) st0.
Proof.
  unfold add_knowledge_prelude. cbv zeta. intros H.
  destruct (build_sentence _ _ n) as [[cs n']|]; [|done].
  simpl in H. injection H as <-. by exists cs, n'.
Qed.

Lemma add_knowledge_inv (fuel : nat) (st st' : t) (c : cell) (n : Z) :
  add_knowledge fuel st c n = Some st' ->
  exists st1 st2 K,
    add_knowledge_prelude st c n = Some st1 /\ closure fuel st1 = Some st2 /\
    remove_empty_loop fuel (knowledge st2) (count_empty (knowledge st2)) = Some K /\
    st' = set_knowledge (dedup K) st2.
Proof.
  unfold add_knowledge. intros H.
  destruct (add_knowledge_prelude st c n) as [st1|] eqn:E1; [|done]. simpl in H.
  destruct (closure fuel st1) as [st2|] eqn:E2; [|done]. simpl in H.
  destruct (remove_empty_loop _ _ _) as [K|] eqn:E; [|done]. simpl in H.
  injection H as <-. by exists st1, st2, K.
Qed.

Lemma add_knowledge_final (fuel : nat) (st st' : t) (c : cell) (n : Z) :
  add_knowledge fuel st c n = Some st' ->
  exists st1 st2,
    add_knowledge_prelude st c n = Some st1 /\ closure fuel st1 = Some st2 /\
    st' = set_knowledge (first_occurrences
                           (filter (fun s => Sentence.cells s <> ∅) (knowledge st2))) st2.
Proof.
  intros H. destruct (add_knowledge_inv _ _ _ _ _ H) as (st1 & st2 & K & H1 & H2 & H3 & ->).
  exists st1, st2. split_and!; [done|done|].
  apply remove_empty_loop_filter in H3 as ->. by rewrite dedup_first_occurrences.
Qed.

(** C5: when [add_knowledge] returns, no sentence of the knowledge base
    has an empty cell set, no two sentences are structurally equal, and
    the knowledge base is the list the closure loop left, with the empty
    sentences dropped and only the first occurrence of each sentence
    kept, in order. *)
Theorem add_knowledge_tidy (fuel : nat) (st st' : t) (c : cell) (n : Z) :
  add_knowledge fuel st c n = Some st' ->
  (forall s, s ∈ knowledge st' -> Sentence.cells s <> ∅) /\
  NoDup (knowledge st') /\
  exists st1 st2,
    add_knowledge_prelude st c n = Some st1 /\ closure fuel st1 = Some st2 /\
    knowledge st' = first_occurrences
                      (filter (fun s => Sentence.cells s <> ∅) (knowledge st2)).
Proof.
  intros H. destruct (add_knowledge_final _ _ _ _ _ H) as (st1 & st2 & H1 & H2 & ->).
  simpl. rewrite <- dedup_first_occurrences.
  destruct (dedup_NoDup_elem (filter (fun s => Sentence.cells s <> ∅) (knowledge st2)))
    as [Hnd Hel].
  split_and!.
  - intros s Hs. apply Hel, list_elem_of_filter in Hs. tauto.
  - done.
  - exists st1, st2. split_and!; [exact H1|exact H2|].
    by rewrite dedup_first_occurrences.
Qed.

(** ** Monotonicity *)

Lemma grows_refl (st : t) : grows st st.
Proof. unfold grows. set_solver. Qed.

Lemma grows_mark_mine (st0 st : t) (c : cell) : grows st0 st -> grows st0 (mark_mine c st).
Proof. unfold grows, mark_mine. simpl. set_solver. Qed.

Lemma grows_mark_safe (st0 st : t) (c : cell) : grows st0 st -> grows st0 (mark_safe c st).
Proof. unfold grows, mark_safe. simpl. set_solver. Qed.

Lemma grows_set_knowledge (st0 st : t) (K : list sentence) :
  grows st0 st -> grows st0 (set_knowledge K st).
Proof. done. Qed.

Lemma grows_add_knowledge (fuel : nat) (st st' : t) (c : cell) (n : Z) :
  add_knowledge fuel st c n = Some st' -> grows st st'.
Proof.
  intros H. destruct (add_knowledge_final _ _ _ _ _ H) as (st1 & st2 & H1 & H2 & ->).
  apply grows_set_knowledge.
  apply (closure_preserved (grows st)
           (fun c' s Hs => grows_mark_mine st s c' Hs)
           (fun c' s Hs => grows_mark_safe st s c' Hs)
           (fun s Hs => grows_set_knowledge st s _ Hs) fuel st1); [|done].
  apply add_knowledge_prelude_inv in H1 as (cs & n' & _ & ->).
  apply grows_set_knowledge, grows_mark_safe. unfold grows, add_safe, add_move. simpl.
  set_solver.
Qed.

(** C10: [moves_made], [mines] and [safes] only grow: after
    [mark_mine], [mark_safe], a returning [add_knowledge],
    [make_safe_move] or [make_random_move] each is a superset of its
    value before the call. *)
Theorem agent_sets_grow (st : t) (c : cell) :
  grows st (mark_mine c st) /\ grows st (mark_safe c st) /\
  (forall fuel n st', add_knowledge fuel st c n = Some st' -> grows st st') /\
  (forall k, grows st (make_safe_move st k).2) /\
  (forall k, grows st (make_random_move st k).2).
Proof.
  split_and!.
  - apply grows_mark_mine, grows_refl.
  - apply grows_mark_safe, grows_refl.
  - intros fuel n st'. apply grows_add_knowledge.
  - intros k. unfold make_safe_move. case_decide; apply grows_refl.
  - intros k. unfold make_random_move. case_decide; apply grows_refl.
Qed.

(** ** Sentences never mention a resolved cell *)

Lemma rd_mark_mine (c : cell) (st : t) : resolved_disjoint st -> resolved_disjoint (mark_mine c st).
Proof.
  unfold resolved_disjoint, mark_mine. simpl. intros H s Hs.
  apply elem_of_map in Hs as [s0 [-> Hs0]]. specialize (H s0 Hs0).
  unfold Sentence.mark_mine. case_decide; simpl; set_solver.
Qed.

Lemma rd_mark_safe (c : cell) (st : t) : resolved_disjoint st -> resolved_disjoint (mark_safe c st).
Proof.
  unfold resolved_disjoint, mark_safe. simpl. intros H s Hs.
  apply elem_of_map in Hs as [s0 [-> Hs0]]. specialize (H s0 Hs0).
  unfold Sentence.mark_safe. case_decide; simpl; set_solver.
Qed.

Lemma rd_derive (st : t) :
  resolved_disjoint st -> resolved_disjoint (set_knowledge (derive_phase (knowledge st)).1 st).
Proof.
  unfold resolved_disjoint. simpl. intros H s Hs.
  apply derive_phase_elem in Hs as [Hs|(s1 & s2 & H1 & H2 & _ & _ & ->)]; [by apply H|].
  specialize (H s2 H2). simpl. set_solver.
Qed.

Lemma rd_prelude (st st1 : t) (c : cell) (n : Z) :
  resolved_disjoint st -> add_knowledge_prelude st c n = Some st1 -> resolved_disjoint st1.
Proof.
  intros H Hp. apply add_knowledge_prelude_inv in Hp as (cs & n' & Hb & ->).
  set (st0 := mark_safe c (add_safe c (add_move c st))) in *.
  assert (H0 : resolved_disjoint st0).
  { unfold resolved_disjoint, st0, mark_safe, add_safe, add_move. simpl. intros s Hs.
    apply elem_of_map in Hs as [s0 [-> Hs0]]. specialize (H s0 Hs0).
    unfold Sentence.mark_safe. case_decide; simpl; set_solver. }
  unfold build_sentence in Hb. apply build_fold_some in Hb as [Hcs _].
  rewrite list_to_set_elements_L in Hcs.
  unfold resolved_disjoint. simpl. intros s Hs.
  apply elem_of_app in Hs as [Hs|Hs%list_elem_of_singleton]; [by apply H0|].
  subst s cs. simpl. set_solver.
Qed.

(** C9: every sentence left in the knowledge base by [add_knowledge] is
    disjoint from the known mines and safes, provided this held before
    the call (as it does for the initial agent, whose knowledge base is
    empty). *)
Theorem add_knowledge_resolved_disjoint (fuel : nat) (st st' : t) (c : cell) (n : Z) :
  resolved_disjoint st -> add_knowledge fuel st c n = Some st' ->
  resolved_disjoint st'.
Proof.
  intros H Ha. destruct (add_knowledge_final _ _ _ _ _ Ha) as (st1 & st2 & H1 & H2 & ->).
  assert (Hd2 : resolved_disjoint st2).
  { apply (closure_preserved resolved_disjoint rd_mark_mine rd_mark_safe rd_derive fuel st1);
      [|done].
    by eapply rd_prelude. }
  unfold resolved_disjoint. simpl. intros s Hs. rewrite <- dedup_first_occurrences in Hs.
  apply (proj2 (dedup_NoDup_elem _)), list_elem_of_filter in Hs as [_ Hs].
  by apply Hd2.
Qed.

Lemma resolved_disjoint_init (h w : Z) : resolved_disjoint (init h w).
Proof. intros s Hs. simpl in Hs. set_solver. Qed.

(** C2: the derive phase of the closure loop adds, for every ordered
    pair (S1, S2) of sentences of the knowledge base with S1.cells a
    strict subset of S2.cells, the sentence
    {S2.cells - S1.cells} = S2.count - S1.count: the knowledge base is
    kept as a prefix and extended by the derived sentences not yet
    present, each once.  On S1 = {A, B} = 1 and S2 = {A, B, C} = 2 the
    first pass of the closure loop derives {C} = 1, and the loop ends
    with C among the known mines. *)
Theorem derive_phase_subset_inference (K : list sentence) (s1 s2 : sentence) :
  s1 ∈ K -> s2 ∈ K ->
  Sentence.cells s1 ⊆ Sentence.cells s2 -> Sentence.cells s1 <> Sentence.cells s2 ->
  Sentence.mk (Sentence.cells s2 ∖ Sentence.cells s1)
              (Sentence.count s2 - Sentence.count s1) ∈ (derive_phase K).1 /\
  (exists K', derive_phase K = (K ++ K', length K') /\ NoDup K' /\
              forall x, x ∈ K' -> x ∉ K) /\
  Sentence.mk {[(0, 2)]} 1 ∈ knowledge (closure_step ex_agent).1 /\
  exists st', closure 10 ex_agent = Some st' /\ (0, 2) ∈ mines st'.
Proof.
  intros H1 H2 Hsub Hne. split_and!.
  - apply derive_phase_elem. right. exists s1, s2. by split_and!.
  - apply derive_phase_appended.
  - vm_compute. right. right. left.
  - eexists. split; [vm_compute; reflexivity|]. vm_compute. set_solver.
Qed.

(** ** Soundness with respect to the board *)

Section Soundness.

Variable b : Minesweeper.t.
Abbreviation B := (Minesweeper.mines b).

Lemma mark_cells_preserved_in (P : t -> Prop) (mark : cell -> t -> t)
    (stch : t * gset cell) (cs : gset cell) :
  (forall c st, c ∈ cs -> P st -> P (mark c st)) -> P stch.1 -> P (mark_cells mark stch cs).1.
Proof.
  intros Hm. unfold mark_cells.
  assert (Hl : forall c, c ∈ elements cs -> forall st, P st -> P (mark c st)).
  { intros c Hc. apply elem_of_elements in Hc. eauto. }
  revert Hl. generalize (elements cs). intros l.
  revert stch. induction l as [|c l IH]; intros [st ch] Hl Hp; simpl; [done|].
  apply IH; [set_solver|]. simpl. apply Hl; [set_solver|done].
Qed.

Lemma known_mines_on_board (s : sentence) :
  sentence_true B s -> Sentence.known_mines s ⊆ B.
Proof.
  unfold sentence_true. intros Ht.
  unfold Sentence.known_mines. rewrite foldl_add_elements.
  case_decide as Hc; [|set_solver].
  assert (Heq : Sentence.cells s ∩ B = Sentence.cells s).
  { apply set_subseteq_size_eq; [set_solver|lia]. }
  set_solver.
Qed.

Lemma known_safes_off_board (s : sentence) :
  sentence_true B s -> Sentence.known_safes s ## B.
Proof.
  unfold sentence_true. intros Ht.
  unfold Sentence.known_safes. rewrite foldl_add_elements.
  case_decide as Hc; [|set_solver].
  assert (H0 : size (Sentence.cells s ∩ B) = 0%nat) by lia.
  apply size_zero_empty in H0. set_solver.
Qed.

Lemma sound_mark_mine (c : cell) (st : t) : c ∈ B -> sound b st -> sound b (mark_mine c st).
Proof.
  intros Hc (Hm & Hs & Hk). unfold mark_mine. split_and!; simpl; [set_solver|done|].
  intros s Hs'. apply elem_of_map in Hs' as [s0 [-> Hs0]]. specialize (Hk s0 Hs0).
  unfold Sentence.mark_mine, sentence_true in *. case_decide as Hin; [|done]. simpl.
  assert (E : Sentence.cells s0 ∩ B = {[c]} ∪ ((Sentence.cells s0 ∖ {[c]}) ∩ B)).
  { apply set_eq. intros x. set_unfold. split; [intros [? ?]; destruct (decide (x = c)); tauto|].
    intros [->|[[? ?] ?]]; auto. }
  rewrite E, size_union, size_singleton in Hk by set_solver. lia.
Qed.

Lemma sound_mark_safe (c : cell) (st : t) : c ∉ B -> sound b st -> sound b (mark_safe c st).
Proof.
  intros Hc (Hm & Hs & Hk). unfold mark_safe. split_and!; simpl; [done|set_solver|].
  intros s Hs'. apply elem_of_map in Hs' as [s0 [-> Hs0]]. specialize (Hk s0 Hs0).
  unfold Sentence.mark_safe, sentence_true in *. case_decide as Hin; [|done]. simpl.
  rewrite Hk. do 2 f_equal. set_solver.
Qed.

Lemma sound_mark_sentence_at (stch : t * gset cell) (i : nat) :
  sound b stch.1 -> sound b (mark_sentence_at stch i).1.
Proof.
  intros Hp. unfold mark_sentence_at.
  destruct (knowledge stch.1 !! i) as [s|] eqn:Es; [|done]. cbv zeta.
  assert (Hts : sentence_true B s).
  { apply (proj2 (proj2 Hp)). by eapply list_elem_of_lookup_2. }
  assert (H1 : sound b (mark_cells mark_mine stch (Sentence.known_mines s)).1).
  { apply mark_cells_preserved_in; [|done]. intros c st Hc.
    apply sound_mark_mine. by apply known_mines_on_board in Hts; set_solver. }
  destruct (knowledge (mark_cells mark_mine stch (Sentence.known_mines s)).1 !! i)
    as [s'|] eqn:Es'; [|done].
  assert (Hts' : sentence_true B s').
  { apply (proj2 (proj2 H1)). by eapply list_elem_of_lookup_2. }
  apply mark_cells_preserved_in; [|done]. intros c st Hc.
  apply sound_mark_safe. apply known_safes_off_board in Hts'. set_solver.
Qed.

Lemma sound_mark_phase (st : t) : sound b st -> sound b (mark_phase st).1.
Proof.
  intros Hp. unfold mark_phase. generalize (seq 0 (length (knowledge st))) as l.
  intros l. assert (Hp0 : sound b (st, (∅ : gset cell)).1) by done. revert Hp0.
  generalize (st, (∅ : gset cell)) as stch. induction l as [|i l IH]; intros stch H; simpl; [done|].
  apply IH. by apply sound_mark_sentence_at.
Qed.

Lemma sentence_true_subtract (s1 s2 : sentence) :
  sentence_true B s1 -> sentence_true B s2 -> Sentence.cells s1 ⊆ Sentence.cells s2 ->
  sentence_true B (Sentence.mk (Sentence.cells s2 ∖ Sentence.cells s1)
                               (Sentence.count s2 - Sentence.count s1)).
Proof.
  unfold sentence_true. simpl. intros H1 H2 Hsub.
  assert (E : Sentence.cells s2 ∩ B =
              ((Sentence.cells s2 ∖ Sentence.cells s1) ∩ B) ∪ (Sentence.cells s1 ∩ B)).
  { apply set_eq. intros x. set_unfold.
    destruct (decide (x ∈ Sentence.cells s1)); set_solver. }
  rewrite E, size_union in H2 by set_solver. lia.
Qed.

Lemma sound_derive (st : t) :
  sound b st -> sound b (set_knowledge (derive_phase (knowledge st)).1 st).
Proof.
  intros (Hm & Hs & Hk). split_and!; [done|done|]. simpl. intros s Hs'.
  apply derive_phase_elem in Hs' as [Hs'|(s1 & s2 & H1 & H2 & Hsub & _ & ->)];
    [by apply Hk|].
  apply sentence_true_subtract; auto.
Qed.

Lemma sound_closure_step (st : t) : sound b st -> sound b (closure_step st).1.
Proof.
  intros Hp. unfold closure_step.
  pose proof (sound_mark_phase st Hp) as H1.
  destruct (mark_phase st) as [st1 ch]. simpl in H1.
  pose proof (sound_derive st1 H1) as H2.
  destruct (derive_phase (knowledge st1)) as [K2 n]. exact H2.
Qed.

Lemma sound_closure (fuel : nat) (st st' : t) :
  sound b st -> closure fuel st = Some st' -> sound b st'.
Proof.
  revert st. induction fuel as [|f IH]; intros st Hp Hc; simpl in Hc; [done|].
  pose proof (sound_closure_step st Hp) as H1.
  destruct (closure_step st) as [st1 done]. simpl in H1.
  destruct done; [by injection Hc as <-|]. by apply (IH st1).
Qed.

End Soundness.

(** ** The count of the new sentence *)

Lemma foldl_block {A} (f : A -> cell -> A) (acc : A) (L1 L2 : list Z) :
  foldl f acc (flat_map (fun i => map (fun j => (i, j)) L2) L1) =
  foldl (fun acc i => foldl (fun acc j => f acc (i, j)) acc L2) acc L1.
Proof.
  revert acc. induction L1 as [|i L1 IH]; intros acc; simpl; [done|].
  rewrite foldl_app, IH. f_equal.
  clear. revert acc. induction L2 as [|j L2 IH]; intros acc; simpl; auto.
Qed.

Lemma NoDup_block (c : cell) : NoDup (block c).
Proof.
  unfold block. generalize (NoDup_seqZ (c.2 - 1) (c.2 + 2 - (c.2 - 1))).
  generalize (NoDup_seqZ (c.1 - 1) (c.1 + 2 - (c.1 - 1))).
  unfold range. generalize (seqZ (c.2 - 1) (c.2 + 2 - (c.2 - 1))) as L2.
  generalize (seqZ (c.1 - 1) (c.1 + 2 - (c.1 - 1))) as L1.
  intros L1 L2 H1 H2. induction H1 as [|i L1 Hi H1 IH]; simpl; [constructor|].
  apply NoDup_app. split_and!.
  - clear -H2. induction H2 as [|j L2 Hj H2 IH]; simpl; constructor; [|done].
    rewrite elem_of_map. intros [j' [Hjj ?]]. injection Hjj as ->. done.
  - intros x Hx Hx'. apply elem_of_map in Hx as [j [-> _]].
    apply list_elem_of_In, in_flat_map in Hx' as [i' [Hi' Hx']].
    apply in_map_iff in Hx' as [j' [Hij _]]. injection Hij as -> _.
    apply Hi. by apply list_elem_of_In.
  - done.
Qed.

Section Count.

Variable B : gset cell.

Lemma block_count (h w : Z) (c : cell) (P : list cell) (accS : gset cell) (accN : Z) :
  NoDup P -> (forall p, p ∈ P -> p ∉ accS) ->
  foldl (fun acc p => if decide (p = c) then acc
          else if decide (0 <= p.1 < h /\ 0 <= p.2 < w) then
            (if bool_decide (p ∈ B) then acc + 1 else acc) else acc) accN P =
  accN + Z.of_nat (size (foldl (fun acc p => if decide (p = c) then acc
          else if decide (0 <= p.1 < h /\ 0 <= p.2 < w) then acc ∪ {[p]} else acc)
          accS P ∩ B)) - Z.of_nat (size (accS ∩ B)).
Proof.
  revert accS accN. induction P as [|p P IH]; intros accS accN Hnd Hout; simpl; [lia|].
  apply NoDup_cons in Hnd as [Hp Hnd].
  destruct (decide (p = c)); [apply IH; set_solver|].
  destruct (decide (0 <= p.1 < h /\ 0 <= p.2 < w)); [|apply IH; set_solver].
  rewrite (IH (accS ∪ {[p]})); [|done|].
  2:{ intros q Hq. rewrite elem_of_union, elem_of_singleton.
      intros [Hq'| ->]; [by eapply Hout; [right|]|done]. }
  assert (Hpa : p ∉ accS) by (apply Hout; left).
  case_bool_decide as HpB.
  - assert (E : (accS ∪ {[p]}) ∩ B = (accS ∩ B) ∪ {[p]}) by set_solver.
    rewrite E, (size_union (accS ∩ B) {[p]}) by set_solver. rewrite size_singleton. lia.
  - assert (E : (accS ∪ {[p]}) ∩ B = accS ∩ B) by set_solver.
    rewrite E. lia.
Qed.

End Count.

Lemma surrounding_cells_block (st : t) (c : cell) :
  surrounding_cells st c =
  foldl (fun acc p => if decide (p = c) then acc
          else if decide (0 <= p.1 < height st /\ 0 <= p.2 < width st) then acc ∪ {[p]}
          else acc) ∅ (block c).
Proof. unfold block. rewrite foldl_block. reflexivity. Qed.

Lemma nearby_mines_block (b : Minesweeper.t) (c : cell) :
  Minesweeper.nearby_mines b c =
  foldl (fun acc p => if decide (p = c) then acc
          else if decide (0 <= p.1 < Minesweeper.height b /\ 0 <= p.2 < Minesweeper.width b)
          then (if bool_decide (p ∈ Minesweeper.mines b) then acc + 1 else acc) else acc)
    0 (block c).
Proof. unfold block. rewrite foldl_block. reflexivity. Qed.

(** [nearby_mines(cell)] is the number of mines among the cells
    [add_knowledge] puts around [cell]. *)
Lemma nearby_mines_surrounding (b : Minesweeper.t) (st : t) (c : cell) :
  height st = Minesweeper.height b -> width st = Minesweeper.width b ->
  Minesweeper.nearby_mines b c = Z.of_nat (size (surrounding_cells st c ∩ Minesweeper.mines b)).
Proof.
  intros Hh Hw. rewrite nearby_mines_block, surrounding_cells_block, Hh, Hw.
  rewrite (block_count (Minesweeper.mines b) _ _ c (block c) ∅ 0).
  - rewrite intersection_empty_l_L, size_empty. lia.
  - apply NoDup_block.
  - set_solver.
Qed.

Lemma filter_elements_size (X M : gset cell) :
  length (filter (fun x => x ∈ M) (elements X)) = size (X ∩ M).
Proof.
  rewrite <- (size_list_to_set (C:=gset cell)) by (apply NoDup_filter, NoDup_elements).
  f_equal. apply set_eq. intros x.
  rewrite elem_of_list_to_set, list_elem_of_filter, elem_of_elements. set_solver.
Qed.

Lemma sound_prelude (b : Minesweeper.t) (st st1 : t) (c : cell) (n : Z) :
  sound b st -> valid_call b st c n -> add_knowledge_prelude st c n = Some st1 ->
  sound b st1.
Proof.
  intros Hs (Hh & Hw & _ & Hc & Hn) Hp.
  apply add_knowledge_prelude_inv in Hp as (cs & n' & Hb & ->).
  set (st0 := mark_safe c (add_safe c (add_move c st))) in *.
  assert (H0 : sound b st0).
  { apply sound_mark_safe; [done|]. destruct Hs as (Hm & Hsf & Hk).
    unfold add_safe, add_move. split_and!; simpl; [done|set_solver|done]. }
  destruct H0 as (Hm0 & Hs0 & Hk0).
  unfold build_sentence in Hb. apply build_fold_some in Hb as [Hcs Hn'].
  rewrite list_to_set_elements_L in Hcs. rewrite filter_elements_size in Hn'.
  assert (Hsur : n = Z.of_nat (size (surrounding_cells st0 c ∩ Minesweeper.mines b))).
  { rewrite Hn. by apply nearby_mines_surrounding. }
  split_and!; [done|done|]. simpl. intros s Hs'.
  apply elem_of_app in Hs' as [Hs'|Hs'%list_elem_of_singleton]; [by apply Hk0|].
  subst s. unfold sentence_true. simpl.
  set (surr := surrounding_cells st0 c) in *.
  assert (E : surr ∩ Minesweeper.mines b = (cs ∩ Minesweeper.mines b) ∪ (surr ∩ mines st0)).
  { subst cs. apply set_eq. intros x. set_unfold.
    destruct (decide (x ∈ mines st0)); set_solver. }
  rewrite E, size_union in Hsur by (subst cs; set_solver). lia.
Qed.

Lemma reachable_sound (b : Minesweeper.t) (st : t) : reachable b st -> sound b st.
Proof.
  induction 1 as [|st st' c n fuel Hr IH Hv Ha].
  - unfold sound. simpl. split_and!; [set_solver|set_solver|]. intros s Hs. set_solver.
  - destruct (add_knowledge_final _ _ _ _ _ Ha) as (st1 & st2 & H1 & H2 & ->).
    assert (Hs2 : sound b st2).
    { eapply sound_closure; [|exact H2]. by eapply sound_prelude. }
    destruct Hs2 as (Hm & Hsf & Hk). split_and!; [done|done|]. simpl. intros s Hs.
    rewrite <- dedup_first_occurrences in Hs.
    apply (proj2 (dedup_NoDup_elem _)), list_elem_of_filter in Hs as [_ Hs].
    by apply Hk.
Qed.

(** C1: after any sequence of valid [add_knowledge] calls from a fresh
    agent (each cell new, not a mine, its count the board's
    [nearby_mines]), the known mines and the known safes are disjoint. *)
Theorem reachable_mines_safes_disjoint (b : Minesweeper.t) (st : t) :
  reachable b st -> mines st ## safes st.
Proof.
  intros Hr. destruct (reachable_sound b st Hr) as (Hm & Hs & _). set_solver.
Qed.

Lemma reachable_mines_safes_disjoint_witness :
  exists st, add_knowledge 10 (init 1 3) (0, 0) 0 = Some st /\
             reachable ex_board st /\ mines st ## safes st.
Proof.
  destruct (add_knowledge 10 (init 1 3) (0, 0) 0) as [st|] eqn:E;
    [|vm_compute in E; discriminate].
  assert (Hr : reachable ex_board st).
  { apply (reachable_add ex_board (init 1 3) st (0, 0) 0 10).
    - apply (reachable_init ex_board).
    - unfold valid_call. split_and!; [reflexivity|reflexivity|set_solver|
        vm_compute; intros H; inversion H|vm_compute; reflexivity].
    - exact E. }
  exists st. split_and!; [reflexivity|exact Hr|].
  exact (reachable_mines_safes_disjoint ex_board st Hr).
Defined.

(** ** Termination of the closure loop *)

Lemma knowledge_cells_elem (K : list sentence) (x : cell) :
  x ∈ knowledge_cells K <-> exists s, s ∈ K /\ x ∈ Sentence.cells s.
Proof.
  unfold knowledge_cells. rewrite elem_of_union_list. split.
  - intros [X [HX Hx]]. apply elem_of_map in HX as [s [-> Hs]]. eauto.
  - intros [s [Hs Hx]]. exists (Sentence.cells s). split; [|done].
    apply elem_of_map. eauto.
Qed.

Lemma knowledge_cells_map (f : sentence -> sentence) (c : cell) (K : list sentence) :
  (forall s, Sentence.cells (f s) = Sentence.cells s ∖ {[c]}) ->
  knowledge_cells (map f K) = knowledge_cells K ∖ {[c]}.
Proof.
  intros Hf. apply set_eq. intros x. rewrite elem_of_difference, !knowledge_cells_elem.
  split.
  - intros [s [Hs Hx]]. apply elem_of_map in Hs as [s0 [-> Hs0]].
    rewrite Hf in Hx. set_solver.
  - intros [[s [Hs Hx]] Hc]. exists (f s). rewrite Hf. split; [|set_solver].
    apply elem_of_map. eauto.
Qed.

Lemma knowledge_cells_mark_mine (c : cell) (st : t) :
  knowledge_cells (knowledge (mark_mine c st)) = knowledge_cells (knowledge st) ∖ {[c]}.
Proof.
  apply knowledge_cells_map. intros s. unfold Sentence.mark_mine. case_decide; simpl; set_solver.
Qed.

Lemma knowledge_cells_mark_safe (c : cell) (st : t) :
  knowledge_cells (knowledge (mark_safe c st)) = knowledge_cells (knowledge st) ∖ {[c]}.
Proof.
  apply knowledge_cells_map. intros s. unfold Sentence.mark_safe. case_decide; simpl; set_solver.
Qed.

Lemma known_mines_subset (s : sentence) : Sentence.known_mines s ⊆ Sentence.cells s.
Proof. unfold Sentence.known_mines. rewrite foldl_add_elements. case_decide; set_solver. Qed.

Lemma known_safes_subset (s : sentence) : Sentence.known_safes s ⊆ Sentence.cells s.
Proof. unfold Sentence.known_safes. rewrite foldl_add_elements. case_decide; set_solver. Qed.

Lemma mark_fold_grows (mark : cell -> t -> t) (l : list cell) (stch : t * gset cell) :
  stch.2 ⊆ (foldl (fun '(st, ch) c => (mark c st, ch ∪ {[c]})) stch l).2.
Proof.
  revert stch. induction l as [|c l IH]; intros [st ch]; simpl; [done|].
  etrans; [|apply IH]. simpl. set_solver.
Qed.

Lemma mark_cells_grows (mark : cell -> t -> t) (stch : t * gset cell) (cs : gset cell) :
  stch.2 ⊆ (mark_cells mark stch cs).2.
Proof. apply mark_fold_grows. Qed.

Lemma mark_cells_unchanged (mark : cell -> t -> t) (stch : t * gset cell) (cs : gset cell) :
  (mark_cells mark stch cs).2 = ∅ -> mark_cells mark stch cs = stch.
Proof.
  unfold mark_cells. destruct (elements cs) as [|c l]; [done|].
  destruct stch as [st ch]. simpl. intros H.
  pose proof (mark_fold_grows mark l (mark c st, ch ∪ {[c]})) as Hg.
  rewrite H in Hg. simpl in Hg. set_solver.
Qed.

(** Marking removes the marked cells from every sentence: the cells
    still mentioned lose all of [cells_changed]. *)
Lemma mark_cells_shrink (mark : cell -> t -> t) (U0 : gset cell)
    (stch : t * gset cell) (cs : gset cell) :
  (forall c st, knowledge_cells (knowledge (mark c st)) = knowledge_cells (knowledge st) ∖ {[c]}) ->
  cs ⊆ U0 ->
  knowledge_cells (knowledge stch.1) ⊆ U0 ∖ stch.2 -> stch.2 ⊆ U0 ->
  knowledge_cells (knowledge (mark_cells mark stch cs).1) ⊆ U0 ∖ (mark_cells mark stch cs).2 /\
  (mark_cells mark stch cs).2 ⊆ U0.
Proof.
  intros Hm Hcs. unfold mark_cells.
  assert (Hl : forall c, c ∈ elements cs -> c ∈ U0).
  { intros c Hc. apply elem_of_elements in Hc. set_solver. }
  revert Hl. generalize (elements cs) as l. intros l. revert stch.
  induction l as [|c l IH]; intros [st ch] Hl H1 H2; simpl; [done|].
  assert (Hc : c ∈ U0) by (apply Hl; set_solver).
  apply IH; simpl.
  - intros y Hy. apply Hl. set_solver.
  - rewrite Hm. set_solver.
  - set_solver.
Qed.

Lemma cells_in_knowledge_cells (K : list sentence) (i : nat) (s : sentence) :
  K !! i = Some s -> Sentence.cells s ⊆ knowledge_cells K.
Proof.
  intros Hi x Hx. apply knowledge_cells_elem. exists s.
  split; [by eapply list_elem_of_lookup_2|done].
Qed.

Lemma mark_sentence_at_shrink (U0 : gset cell) (stch : t * gset cell) (i : nat) :
  knowledge_cells (knowledge stch.1) ⊆ U0 ∖ stch.2 -> stch.2 ⊆ U0 ->
  knowledge_cells (knowledge (mark_sentence_at stch i).1) ⊆ U0 ∖ (mark_sentence_at stch i).2 /\
  (mark_sentence_at stch i).2 ⊆ U0.
Proof.
  intros H1 H2. unfold mark_sentence_at.
  destruct (knowledge stch.1 !! i) as [s|] eqn:Es; [|done]. cbv zeta.
  pose proof (cells_in_knowledge_cells _ _ _ Es) as Hs.
  pose proof (known_mines_subset s) as Hkm.
  destruct (mark_cells_shrink mark_mine U0 stch (Sentence.known_mines s)) as [H3 H4];
    [apply knowledge_cells_mark_mine|set_solver|done|done|].
  destruct (knowledge (mark_cells mark_mine stch (Sentence.known_mines s)).1 !! i)
    as [s'|] eqn:Es'; [|done].
  pose proof (cells_in_knowledge_cells _ _ _ Es') as Hs'.
  pose proof (known_safes_subset s') as Hks.
  apply mark_cells_shrink; [apply knowledge_cells_mark_safe|set_solver|done|done].
Qed.

Lemma mark_sentence_at_unchanged (stch : t * gset cell) (i : nat) :
  (mark_sentence_at stch i).2 = ∅ -> mark_sentence_at stch i = stch.
Proof.
  unfold mark_sentence_at.
  destruct (knowledge stch.1 !! i) as [s|]; [|done]. cbv zeta.
  destruct (knowledge (mark_cells mark_mine stch (Sentence.known_mines s)).1 !! i)
    as [s'|]; intros H.
  - pose proof (mark_cells_unchanged _ _ _ H) as E. rewrite E in H |- *.
    by apply mark_cells_unchanged.
  - by apply mark_cells_unchanged.
Qed.

Lemma foldl_mark_sentence_at_shrink (U0 : gset cell) (l : list nat) (stch : t * gset cell) :
  knowledge_cells (knowledge stch.1) ⊆ U0 ∖ stch.2 -> stch.2 ⊆ U0 ->
  knowledge_cells (knowledge (foldl mark_sentence_at stch l).1)
    ⊆ U0 ∖ (foldl mark_sentence_at stch l).2 /\
  (foldl mark_sentence_at stch l).2 ⊆ U0 /\
  ((foldl mark_sentence_at stch l).2 = ∅ -> foldl mark_sentence_at stch l = stch).
Proof.
  revert stch. induction l as [|i l IH]; intros stch H1 H2; simpl; [done|].
  destruct (mark_sentence_at_shrink U0 stch i H1 H2) as [H3 H4].
  destruct (IH _ H3 H4) as (H5 & H6 & H7). split_and!; [done|done|].
  intros He. pose proof (H7 He) as E. rewrite E in He |- *.
  by apply mark_sentence_at_unchanged.
Qed.

(** The mark phase: the mentioned cells lose [cells_changed], which
    they contained, and nothing changes when [cells_changed] is empty. *)
Lemma mark_phase_shrink (st : t) :
  knowledge_cells (knowledge (mark_phase st).1)
    ⊆ knowledge_cells (knowledge st) ∖ (mark_phase st).2 /\
  (mark_phase st).2 ⊆ knowledge_cells (knowledge st) /\
  ((mark_phase st).2 = ∅ -> (mark_phase st).1 = st).
Proof.
  unfold mark_phase.
  destruct (foldl_mark_sentence_at_shrink (knowledge_cells (knowledge st))
              (seq 0 (length (knowledge st))) (st, ∅)) as (H1 & H2 & H3);
    simpl; [set_solver|set_solver|].
  split_and!; [done|done|]. intros He. by rewrite (H3 He).
Qed.

(** The derive phase mentions no new cell. *)
Lemma knowledge_cells_derive (K : list sentence) :
  knowledge_cells (derive_phase K).1 = knowledge_cells K.
Proof.
  apply set_eq. intros x. rewrite !knowledge_cells_elem. split.
  - intros [s [Hs Hx]].
    apply derive_phase_elem in Hs as [Hs|(s1 & s2 & H1 & H2 & Hsub & _ & ->)]; [eauto|].
    simpl in Hx. exists s2. split; [done|set_solver].
  - intros [s [Hs Hx]]. exists s. split; [|done]. apply derive_phase_elem. by left.
Qed.

(** On a board, a true sentence is determined by its cells. *)
Lemma sentence_true_cells_eq (B : gset cell) (s1 s2 : sentence) :
  sentence_true B s1 -> sentence_true B s2 -> Sentence.cells s1 = Sentence.cells s2 -> s1 = s2.
Proof.
  unfold sentence_true. destruct s1 as [c1 n1], s2 as [c2 n2]; simpl.
  intros H1 H2 ->. f_equal. lia.
Qed.

Lemma subsets_complete (l : list cell) (C : gset cell) :
  C ⊆ list_to_set l -> C ∈ subsets l.
Proof.
  revert C. induction l as [|x l IH]; intros C HC; simpl.
  - assert (E : C = ∅) by set_solver. rewrite E. by apply list_elem_of_singleton.
  - apply elem_of_app. destruct (decide (x ∈ C)) as [Hx|Hx].
    + right. apply elem_of_map. exists (C ∖ {[x]}). split.
      * apply set_eq. intros y. destruct (decide (y = x)); set_solver.
      * apply IH. set_solver.
    + left. apply IH. set_solver.
Qed.

Lemma filter_length_mono {A} (P Q : A -> Prop)
    `{!forall x, Decision (P x)} `{!forall x, Decision (Q x)} (l : list A) :
  (forall x, Q x -> P x) -> (length (filter Q l) <= length (filter P l))%nat.
Proof.
  intros HQP. induction l as [|x l IH]; [done|]. rewrite !filter_cons.
  destruct (decide (Q x)), (decide (P x)); simpl; try lia. exfalso; auto.
Qed.

Lemma filter_length_lt {A} (P Q : A -> Prop)
    `{!forall x, Decision (P x)} `{!forall x, Decision (Q x)} (l : list A) (y : A) :
  (forall x, Q x -> P x) -> y ∈ l -> P y -> ~ Q y ->
  (length (filter Q l) < length (filter P l))%nat.
Proof.
  intros HQP Hy HP HQ. induction l as [|x l IH]; [by apply elem_of_nil in Hy|].
  pose proof (filter_length_mono P Q l HQP) as Hle. rewrite !filter_cons.
  apply elem_of_cons in Hy as [->|Hy].
  - rewrite decide_False, decide_True by done. simpl. lia.
  - specialize (IH Hy). destruct (decide (Q x)), (decide (P x)); simpl; try lia; exfalso; auto.
Qed.

(** A new sentence with a new cell set over the same cells uses up one
    more subset. *)
Lemma unseen_decrease (K K' : list sentence) (x : sentence) :
  knowledge_cells (K ++ K') = knowledge_cells K ->
  x ∈ K' -> Sentence.cells x ∉ map Sentence.cells K ->
  (unseen_cell_sets (K ++ K') < unseen_cell_sets K)%nat.
Proof.
  intros HU Hx Hn. unfold unseen_cell_sets. rewrite HU.
  apply (filter_length_lt _ _ _ (Sentence.cells x)).
  - intros C HC HCK. apply HC. rewrite map_app. apply elem_of_app. by left.
  - apply subsets_complete. rewrite list_to_set_elements_L, <- HU.
    intros y Hy. apply knowledge_cells_elem. exists x. split; [|done].
    apply elem_of_app. by right.
  - done.
  - intros HC. apply HC. rewrite map_app. apply elem_of_app. right.
    apply elem_of_map. eauto.
Qed.

(** One pass that does not exit either removes a mentioned cell, or
    keeps the mentioned cells and adds a sentence over a new cell set. *)
Lemma closure_step_progress (b : Minesweeper.t) (st st' : t) :
  sound b st -> closure_step st = (st', false) ->
  (size (knowledge_cells (knowledge st')) < size (knowledge_cells (knowledge st)))%nat \/
  (knowledge_cells (knowledge st') = knowledge_cells (knowledge st) /\
   (unseen_cell_sets (knowledge st') < unseen_cell_sets (knowledge st))%nat).
Proof.
  intros Hs Hc. unfold closure_step in Hc.
  destruct (mark_phase_shrink st) as (H1 & H2 & H3).
  pose proof (sound_mark_phase b st Hs) as Hs1.
  destruct (mark_phase st) as [st1 ch]. simpl in H1, H2, H3, Hs1.
  destruct (derive_phase_appended (knowledge st1)) as (K' & HK & Hnd & Hout).
  pose proof (knowledge_cells_derive (knowledge st1)) as HU.
  pose proof (sound_derive b st1 Hs1) as Hs2.
  rewrite HK in Hc, HU, Hs2. simpl in HU. injection Hc as <- Hd.
  apply bool_decide_eq_false in Hd. simpl.
  destruct (decide (ch = ∅)) as [->|Hch].
  - right. specialize (H3 eq_refl). subst st1.
    destruct K' as [|x K'']; [rewrite size_empty in Hd; simpl in Hd; tauto|].
    split; [done|]. apply (unseen_decrease _ _ x HU); [set_solver|].
    intros Hx. apply elem_of_map in Hx as [y [Hy Hyin]].
    apply (Hout x); [set_solver|].
    destruct Hs2 as (_ & _ & Hk2). simpl in Hk2.
    assert (E : x = y).
    { apply (sentence_true_cells_eq (Minesweeper.mines b)); [apply Hk2; set_solver| |done].
      apply Hk2. set_solver. }
    by rewrite E.
  - left. rewrite HU. apply set_choose_L in Hch as [z Hz].
    apply (Nat.le_lt_trans _ (size (knowledge_cells (knowledge st) ∖ ch))).
    + by apply subseteq_size.
    + apply subset_size. set_solver.
Qed.

(** From a state that is true of a board, [closure] returns for some fuel. *)
Lemma closure_terminates (b : Minesweeper.t) (st : t) :
  sound b st -> exists fuel st', closure fuel st = Some st'.
Proof.
  remember (size (knowledge_cells (knowledge st))) as m eqn:Hm. revert st Hm.
  induction m as [m IHm] using (well_founded_induction lt_wf).
  intros st Hm.
  remember (unseen_cell_sets (knowledge st)) as u eqn:Hu. revert st Hm Hu.
  induction u as [u IHu] using (well_founded_induction lt_wf).
  intros st Hm Hu Hs.
  destruct (closure_step st) as [st' d] eqn:Hc.
  assert (Hs' : sound b st').
  { pose proof (sound_closure_step b st Hs) as H. rewrite Hc in H. exact H. }
  destruct d.
  - exists 1%nat, st'. simpl. by rewrite Hc.
  - destruct (closure_step_progress b st st' Hs Hc) as [Hlt|[Heq Hlt]].
    + destruct (IHm (size (knowledge_cells (knowledge st'))) ltac:(lia) st' eq_refl Hs') as (f & st'' & Hf).
      exists (S f), st''. simpl. by rewrite Hc.
    + destruct (IHu (unseen_cell_sets (knowledge st')) ltac:(lia) st' ltac:(by rewrite Heq)
                  eq_refl Hs') as (f & st'' & Hf).
      exists (S f), st''. simpl. by rewrite Hc.
Qed.

Lemma build_fold_success (st : t) (l : list cell) (cs : gset cell) (n : Z) :
  NoDup l -> mines st ## safes st -> (forall x, x ∈ l -> x ∈ cs) ->
  exists r, foldl (build_step st) (Some (cs, n)) l = Some r.
Proof.
  revert cs n. induction l as [|x l IH]; intros cs n Hnd Hdis Hl; [by eexists|].
  apply NoDup_cons in Hnd as [Hx Hnd].
  change (exists r, foldl (build_step st) (build_step st (Some (cs, n)) x) l = Some r).
  assert (Hs : exists cs1 n1, build_step st (Some (cs, n)) x = Some (cs1, n1) /\
                              cs ∖ {[x]} ⊆ cs1).
  { assert (Hxc : x ∈ cs) by (apply Hl; set_solver).
    unfold build_step, py_remove. simpl.
    destruct (decide (x ∈ mines st)) as [Hm|Hm].
    - rewrite decide_True by done. simpl.
      rewrite decide_False by set_solver. do 2 eexists. split; [reflexivity|set_solver].
    - simpl. destruct (decide (x ∈ safes st)).
      + rewrite decide_True by done. simpl. do 2 eexists. split; [reflexivity|set_solver].
      + do 2 eexists. split; [reflexivity|set_solver]. }
  destruct Hs as (cs1 & n1 & -> & Hsub). apply IH; [done|done|].
  intros y Hy. apply Hsub. assert (y <> x) by (intros ->; contradiction). set_solver.
Qed.

(** Steps 1 to 3 return (no [KeyError]) when no known mine is a known safe. *)
Lemma prelude_success (b : Minesweeper.t) (st : t) (c : cell) (n : Z) :
  sound b st -> c ∉ Minesweeper.mines b -> exists st1, add_knowledge_prelude st c n = Some st1.
Proof.
  intros (Hm & Hs & _) Hc. unfold add_knowledge_prelude, build_sentence. cbv zeta.
  destruct (build_fold_success (mark_safe c (add_safe c (add_move c st)))
              (elements (surrounding_cells (mark_safe c (add_safe c (add_move c st))) c))
              (surrounding_cells (mark_safe c (add_safe c (add_move c st))) c) n)
    as [[cs n'] Hr].
  - apply NoDup_elements.
  - simpl. set_solver.
  - intros x Hx. by apply elem_of_elements.
  - rewrite Hr. simpl. eauto.
Qed.

(** C3: for a call [add_knowledge(cell, count)] meeting the
    preconditions (the agent reached by such calls, the cell new and not
    a mine, [count] the board's [nearby_mines(cell)]), steps 1 to 3
    return and the closure loop [while counter == 0] exits after
    finitely many passes: some fuel lets [closure] return. *)
Theorem add_knowledge_closure_terminates (b : Minesweeper.t) (st : t) (c : cell) (n : Z) :
  reachable b st -> valid_call b st c n ->
  exists st1 fuel st2,
    add_knowledge_prelude st c n = Some st1 /\ closure fuel st1 = Some st2.
Proof.
  intros Hr Hv. pose proof (reachable_sound b st Hr) as Hs.
  destruct (prelude_success b st c n Hs (proj1 (proj2 (proj2 (proj2 Hv))))) as [st1 H1].
  pose proof (sound_prelude b st st1 c n Hs Hv H1) as Hs1.
  destruct (closure_terminates b st1 Hs1) as (fuel & st2 & H2).
  exists st1, fuel, st2. by split.
Qed.

Lemma add_knowledge_closure_terminates_witness :
  reachable ex_board (init 1 3) /\ valid_call ex_board (init 1 3) (0, 0) 0 /\
  exists st1 fuel st2,
    add_knowledge_prelude (init 1 3) (0, 0) 0 = Some st1 /\ closure fuel st1 = Some st2.
Proof.
  assert (Hr : reachable ex_board (init 1 3)) by exact (reachable_init ex_board).
  assert (Hv : valid_call ex_board (init 1 3) (0, 0) 0).
  { unfold valid_call. split_and!; [reflexivity|reflexivity|set_solver|
      vm_compute; intros H; inversion H|vm_compute; reflexivity]. }
  split; [exact Hr|]. split; [exact Hv|].
  exact (add_knowledge_closure_terminates ex_board (init 1 3) (0, 0) 0 Hr Hv).
Defined.

(** ** Instances of the claims with hypotheses *)

Lemma derive_phase_subset_inference_witness :
  ex_S1 ∈ [ex_S1; ex_S2] /\ ex_S2 ∈ [ex_S1; ex_S2] /\
  Sentence.cells ex_S1 ⊆ Sentence.cells ex_S2 /\
  Sentence.cells ex_S1 <> Sentence.cells ex_S2 /\
  Sentence.mk {[(0, 2)]} 1 ∈ (derive_phase [ex_S1; ex_S2]).1.
Proof.
  assert (H1 : ex_S1 ∈ [ex_S1; ex_S2]) by (apply elem_of_cons; left; reflexivity).
  assert (H2 : ex_S2 ∈ [ex_S1; ex_S2])
    by (apply elem_of_cons; right; apply list_elem_of_singleton; reflexivity).
  assert (H3 : Sentence.cells ex_S1 ⊆ Sentence.cells ex_S2)
    by (unfold ex_S1, ex_S2; simpl; set_solver).
  assert (H4 : Sentence.cells ex_S1 <> Sentence.cells ex_S2).
  { intros H. apply (f_equal (fun X => bool_decide ((0, 2) ∈ X))) in H.
    vm_compute in H. discriminate. }
  split_and!; [exact H1|exact H2|exact H3|exact H4|].
  exact (proj1 (derive_phase_subset_inference [ex_S1; ex_S2] ex_S1 ex_S2 H1 H2 H3 H4)).
Defined.

Lemma add_knowledge_tidy_witness :
  exists st', add_knowledge 10 (init 3 3) (1, 1) 1 = Some st' /\
    (forall s, s ∈ knowledge st' -> Sentence.cells s <> ∅) /\ NoDup (knowledge st').
Proof.
  destruct (add_knowledge 10 (init 3 3) (1, 1) 1) as [st|] eqn:E;
    [|vm_compute in E; discriminate].
  exists st. split; [reflexivity|].
  destruct (add_knowledge_tidy 10 (init 3 3) st (1, 1) 1 E) as (H1 & H2 & _).
  split; [exact H1|exact H2].
Defined.

Lemma add_knowledge_resolved_disjoint_witness :
  exists st', add_knowledge 10 (init 1 3) (0, 0) 0 = Some st' /\ resolved_disjoint st'.
Proof.
  destruct (add_knowledge 10 (init 1 3) (0, 0) 0) as [st|] eqn:E;
    [|vm_compute in E; discriminate].
  exists st. split; [reflexivity|].
  exact (add_knowledge_resolved_disjoint 10 (init 1 3) st (0, 0) 0
           (resolved_disjoint_init 1 3) E).
Defined.

(** ** Proofs (board) *)

Lemma foldl_snoc_const {A B} (x : A) (l : list B) (acc : list A) :
  foldl (fun acc _ => acc ++ [x]) acc l = acc ++ replicate (length l) x.
Proof.
  revert acc. induction l as [|y l IH]; intros acc; simpl; [by rewrite app_nil_r|].
  rewrite IH, <- app_assoc. done.
Qed.

Lemma empty_board_replicate (h w : Z) :
  MinesweeperBoard.empty_board h w = replicate (Z.to_nat h) (replicate (Z.to_nat w) false).
Proof.
  unfold MinesweeperBoard.empty_board, range. rewrite !foldl_snoc_const, !length_seqZ.
  simpl. by rewrite !Z.sub_0_r.
Qed.

Lemma board_ok_empty (h w : Z) : board_ok h w ∅ (MinesweeperBoard.empty_board h w).
Proof.
  rewrite empty_board_replicate. unfold board_ok. split_and!.
  - apply length_replicate.
  - intros k row Hk. apply lookup_replicate in Hk as [-> _]. apply length_replicate.
  - set_solver.
  - intros i j Hi Hj. exists (replicate (Z.to_nat w) false). split.
    + apply lookup_replicate_2. lia.
    + rewrite bool_decide_false by set_solver. apply lookup_replicate_2. lia.
Qed.

Lemma py_index_in (A : Type) (l : list A) (i : Z) :
  0 <= i -> py_index l i = l !! Z.to_nat i.
Proof. intros Hi. unfold py_index. by rewrite decide_True. Qed.

Lemma py_index_neg (A : Type) (l : list A) (i : Z) :
  - Z.of_nat (length l) <= i < 0 -> py_index l i = l !! Z.to_nat (Z.of_nat (length l) + i).
Proof. intros Hi. unfold py_index. rewrite decide_False, decide_True by lia. done. Qed.

Lemma py_index_out (A : Type) (l : list A) (i : Z) :
  i < - Z.of_nat (length l) \/ Z.of_nat (length l) <= i -> py_index l i = None.
Proof.
  intros Hi. unfold py_index. destruct (decide (0 <= i)).
  - apply lookup_ge_None_2. lia.
  - rewrite decide_False; [done|lia].
Qed.

Lemma py_assign_in (A : Type) (l : list A) (i : Z) (x : A) :
  0 <= i < Z.of_nat (length l) -> py_assign l i x = Some (<[Z.to_nat i := x]> l).
Proof. intros Hi. unfold py_assign. rewrite !decide_True by lia. done. Qed.

Lemma randrange_spec (n : Z) (k : nat) :
  randrange n k = None /\ n <= 0 \/ exists i, randrange n k = Some i /\ 0 <= i < n.
Proof.
  unfold randrange. destruct (decide (0 < n)).
  - right. eexists. split; [reflexivity|]. apply Z.mod_pos_bound. lia.
  - left. split; [done|lia].
Qed.

(** One iteration of the placement loop keeps the board and the mine
    set in agreement. *)
Lemma place_mines_cons (h w n : Z) (ki kj : nat) (d : list (nat * nat))
    (ms : gset cell) (board : list (list bool)) :
  board_ok h w ms board -> Z.of_nat (size ms) <> n ->
  MinesweeperBoard.place_mines h w n ((ki, kj) :: d) ms board = None \/
  exists ms' board', board_ok h w ms' board' /\
    MinesweeperBoard.place_mines h w n ((ki, kj) :: d) ms board =
    MinesweeperBoard.place_mines h w n d ms' board'.
Proof.
  intros Hok Hn. simpl. rewrite decide_True by done.
  destruct (randrange_spec h ki) as [[-> _]|[i [-> Hi]]]; [by left|]. simpl.
  destruct (randrange_spec w kj) as [[-> _]|[j [-> Hj]]]; [by left|]. simpl.
  destruct Hok as (Hlen & Hrows & Hms & Hagree).
  destruct (Hagree i j Hi Hj) as [row [Hrow Hv]].
  rewrite py_index_in by lia. rewrite Hrow. simpl.
  rewrite py_index_in by lia. rewrite Hv. simpl.
  case_bool_decide as Hin.
  - right. exists ms, board. split; [by split_and!|done].
  - right. assert (Hlr : length row = Z.to_nat w) by (by eapply Hrows).
    rewrite py_assign_in by lia. simpl. rewrite py_assign_in by lia. simpl.
    eexists _, _. split; [|reflexivity].
    split_and!.
    + by rewrite length_insert.
    + intros k r Hk. destruct (decide (k = Z.to_nat i)) as [->|Hne].
      * rewrite list_lookup_insert_eq in Hk by lia. injection Hk as <-.
        by rewrite length_insert.
      * rewrite list_lookup_insert_ne in Hk by done. by eapply Hrows.
    + intros p Hp. apply elem_of_union in Hp as [Hp| ->%elem_of_singleton]; [by apply Hms|].
      simpl. lia.
    + intros i' j' Hi' Hj'. destruct (decide (i' = i)) as [->|Hne].
      * exists (<[Z.to_nat j:=true]> row). split.
        { rewrite list_lookup_insert_eq; [done|lia]. }
        destruct (decide (j' = j)) as [->|Hnj].
        { rewrite list_lookup_insert_eq by lia. rewrite bool_decide_true; [done|set_solver]. }
        rewrite list_lookup_insert_ne by lia.
        destruct (Hagree i j' Hi Hj') as [r [Hr Hr']]. rewrite Hrow in Hr.
        injection Hr as <-. rewrite Hr'. f_equal. apply bool_decide_ext.
        rewrite elem_of_union, elem_of_singleton. split; [tauto|].
        intros [?|H]; [done|injection H; lia].
      * destruct (Hagree i' j' Hi' Hj') as [r [Hr Hr']]. exists r.
        rewrite list_lookup_insert_ne by lia. split; [done|].
        rewrite Hr'. f_equal. apply bool_decide_ext.
        rewrite elem_of_union, elem_of_singleton. split; [tauto|].
        intros [?|H]; [done|injection H; lia].
Qed.

Lemma place_mines_ok (h w n : Z) (d : list (nat * nat)) (ms ms' : gset cell)
    (board board' : list (list bool)) :
  board_ok h w ms board ->
  MinesweeperBoard.place_mines h w n d ms board = Some (ms', board') ->
  board_ok h w ms' board' /\ Z.of_nat (size ms') = n.
Proof.
  revert ms board. induction d as [|[ki kj] d IH]; intros ms board Hok H.
  - simpl in H. destruct (decide (Z.of_nat (size ms) <> n)); [done|].
    injection H as <- <-. split; [done|lia].
  - destruct (decide (Z.of_nat (size ms) = n)) as [He|Hne].
    + simpl in H. rewrite decide_False in H by lia. injection H as <- <-. by split.
    + destruct (place_mines_cons h w n ki kj d ms board Hok Hne)
        as [Hn|(ms1 & b1 & Hok1 & E)]; [congruence|].
      rewrite E in H. by apply (IH ms1 b1).
Qed.


Lemma length_flat_map_pairs (L1 L2 : list Z) :
  length (flat_map (fun i => map (fun j => (i, j)) L2) L1) = (length L1 * length L2)%nat.
Proof.
  induction L1 as [|i L1 IH]; simpl; [done|]. by rewrite length_app, length_map, IH.
Qed.




Lemma init_ok (h w n : Z) (d : list (nat * nat)) (g : MinesweeperBoard.t) :
  MinesweeperBoard.init h w n d = Some g ->
  MinesweeperBoard.height g = h /\ MinesweeperBoard.width g = w /\
  MinesweeperBoard.mines_found g = ∅ /\ Z.of_nat (size (MinesweeperBoard.mines g)) = n /\
  board_ok h w (MinesweeperBoard.mines g) (MinesweeperBoard.board g).
Proof.
  unfold MinesweeperBoard.init. intros H.
  destruct (MinesweeperBoard.place_mines h w n d ∅ (MinesweeperBoard.empty_board h w))
    as [[ms board]|] eqn:E; [|done]. simpl in H. injection H as <-. simpl.
  apply place_mines_ok in E as [Hok Hn]; [|apply board_ok_empty]. by split_and!.
Qed.

Lemma foldl_option_lift {A B} (F : option A -> B -> option A) (G : A -> B -> A)
    (l : list B) (a : A) :
  (forall a b, b ∈ l -> F (Some a) b = Some (G a b)) ->
  foldl F (Some a) l = Some (foldl G a l).
Proof.
  revert a. induction l as [|b l IH]; intros a H; simpl; [done|].
  rewrite H by (left). apply IH. intros a' b' Hb. apply H. by right.
Qed.

Lemma is_mine_ok (h w : Z) (g : MinesweeperBoard.t) (i j : Z) :
  board_ok h w (MinesweeperBoard.mines g) (MinesweeperBoard.board g) ->
  0 <= i < h -> 0 <= j < w ->
  MinesweeperBoard.is_mine g (i, j) = Some (bool_decide ((i, j) ∈ MinesweeperBoard.mines g)).
Proof.
  intros (_ & _ & _ & Hag) Hi Hj. destruct (Hag i j Hi Hj) as [row [Hr Hv]].
  unfold MinesweeperBoard.is_mine. simpl. rewrite py_index_in by lia. rewrite Hr. simpl.
  rewrite py_index_in by lia. done.
Qed.

(** [Minesweeper(height, width, mines)]: when the placement loop exits,
    the board has [mines] mines, all inside the bounds, [is_mine] reads
    them off the board, and no mine is found yet. *)
Theorem board_init_spec (h w n : Z) (d : list (nat * nat)) (g : MinesweeperBoard.t) :
  MinesweeperBoard.init h w n d = Some g ->
  MinesweeperBoard.height g = h /\ MinesweeperBoard.width g = w /\
  MinesweeperBoard.mines_found g = ∅ /\
  Z.of_nat (size (MinesweeperBoard.mines g)) = n /\
  (forall p, p ∈ MinesweeperBoard.mines g -> 0 <= p.1 < h /\ 0 <= p.2 < w) /\
  (forall i j, 0 <= i < h -> 0 <= j < w ->
     MinesweeperBoard.is_mine g (i, j) =
     Some (bool_decide ((i, j) ∈ MinesweeperBoard.mines g))).
Proof.
  intros H. destruct (init_ok h w n d g H) as (Hh & Hw & Hf & Hn & Hok).
  split_and!; [done|done|done|done|apply Hok|].
  intros i j Hi Hj. by apply (is_mine_ok h w).
Qed.


(** [is_mine] indexes the board as a Python list: a negative row or
    column from [-height] (resp. [-width]) on reads the cell counted from
    the end, and a row or column beyond that raises [IndexError]. *)
Theorem board_is_mine_index (h w n : Z) (d : list (nat * nat)) (g : MinesweeperBoard.t)
    (i j : Z) :
  MinesweeperBoard.init h w n d = Some g ->
  (-h <= i < 0 -> MinesweeperBoard.is_mine g (i, j) = MinesweeperBoard.is_mine g (h + i, j)) /\
  (0 <= i < h -> -w <= j < 0 ->
     MinesweeperBoard.is_mine g (i, j) = MinesweeperBoard.is_mine g (i, w + j)) /\
  (i < -h \/ h <= i -> MinesweeperBoard.is_mine g (i, j) = None) /\
  (0 <= i < h -> j < -w \/ w <= j -> MinesweeperBoard.is_mine g (i, j) = None).
Proof.
  intros H. destruct (init_ok h w n d g H) as (_ & _ & _ & _ & Hlen & Hrows & _ & Hag).
  unfold MinesweeperBoard.is_mine. simpl.
  assert (Hrow : forall i, 0 <= i < h -> exists row,
            py_index (MinesweeperBoard.board g) i = Some row /\
            length row = Z.to_nat w).
  { intros i' Hi'. destruct (lookup_lt_is_Some_2 (MinesweeperBoard.board g) (Z.to_nat i'))
      as [row Hr]; [lia|].
    exists row. rewrite py_index_in by lia. split; [done|].
    by rewrite (Hrows _ _ Hr). }
  split_and!.
  - intros Hi. rewrite py_index_neg by lia.
    rewrite py_index_in by lia. rewrite Hlen, Z2Nat.id by lia. done.
  - intros Hi Hj. destruct (Hrow i Hi) as [row [-> Hl]]. simpl.
    rewrite py_index_neg by lia. rewrite py_index_in by lia. do 2 f_equal. lia.
  - intros Hi. rewrite py_index_out by lia. done.
  - intros Hi Hj. destruct (Hrow i Hi) as [row [-> Hl]]. simpl.
    rewrite py_index_out by lia. done.
Qed.

Lemma board_nearby_mines_eq (h w n : Z) (d : list (nat * nat)) (g : MinesweeperBoard.t)
    (c : cell) :
  MinesweeperBoard.init h w n d = Some g ->
  MinesweeperBoard.nearby_mines g c =
  Some (Minesweeper.nearby_mines (MinesweeperBoard.to_minesweeper g) c).
Proof.
  intros H. destruct (init_ok h w n d g H) as (Hh & Hw & _ & _ & Hok).
  unfold MinesweeperBoard.nearby_mines, Minesweeper.nearby_mines.
  cbn [MinesweeperBoard.to_minesweeper Minesweeper.height Minesweeper.width].
  apply foldl_option_lift. intros acc i _. apply foldl_option_lift. intros acc' j _.
  destruct (decide ((i, j) = c)); [done|].
  destruct (decide (0 <= i < MinesweeperBoard.height g /\ 0 <= j < MinesweeperBoard.width g))
    as [[Hi Hj]|]; [|done].
  rewrite Hh in Hi. rewrite Hw in Hj.
  destruct Hok as (_ & _ & _ & Hag). destruct (Hag i j Hi Hj) as [row [Hr Hv]].
  simpl. rewrite py_index_in by lia. rewrite Hr. simpl.
  rewrite py_index_in by lia. rewrite Hv. simpl.
  unfold Minesweeper.is_mine. done.
Qed.

(** [nearby_mines] over the board of a game [__init__] built gives the
    count the agent's model computes from the mine set. *)
Theorem board_nearby_mines (h w n : Z) (d : list (nat * nat)) (g : MinesweeperBoard.t)
    (c : cell) :
  MinesweeperBoard.init h w n d = Some g ->
  MinesweeperBoard.nearby_mines g c =
  Some (Minesweeper.nearby_mines (MinesweeperBoard.to_minesweeper g) c).
Proof. apply board_nearby_mines_eq. Qed.

Lemma foldl_filter_subset (c : cell) (h w : Z) (P : list cell) (acc : gset cell) :
  foldl (fun acc p => if decide (p = c) then acc
          else if decide (0 <= p.1 < h /\ 0 <= p.2 < w) then acc ∪ {[p]} else acc) acc P
  ⊆ acc ∪ (list_to_set P ∖ {[c]}).
Proof.
  revert acc. induction P as [|p P IH]; intros acc; simpl; [set_solver|].
  destruct (decide (p = c)); [|destruct (decide (0 <= p.1 < h /\ 0 <= p.2 < w))];
    (etrans; [apply IH|]); set_solver.
Qed.

Lemma surrounding_cells_not_self (st : t) (c x : cell) :
  x ∈ surrounding_cells st c -> x <> c.
Proof.
  rewrite surrounding_cells_block. intros Hx.
  apply foldl_filter_subset in Hx. set_solver.
Qed.

Lemma block_self (c : cell) : c ∈ block c.
Proof.
  unfold block, range. apply list_elem_of_In, in_flat_map. exists c.1.
  rewrite <- list_elem_of_In, elem_of_seqZ. split; [lia|].
  apply in_map_iff. exists c.2. destruct c; split; [done|].
  apply list_elem_of_In, elem_of_seqZ. simpl. lia.
Qed.

Lemma surrounding_cells_size (st : t) (c : cell) : (size (surrounding_cells st c) <= 8)%nat.
Proof.
  rewrite surrounding_cells_block.
  pose proof (subseteq_size _ _ (foldl_filter_subset c (height st) (width st) (block c) ∅))
    as Hs.
  assert (Hl : size (list_to_set (block c) : gset cell) = 9%nat).
  { rewrite (size_list_to_set (C:=gset cell)) by apply NoDup_block.
    unfold block, range. rewrite length_flat_map_pairs, !length_seqZ.
    replace (c.1 + 2 - (c.1 - 1)) with 3 by lia. replace (c.2 + 2 - (c.2 - 1)) with 3 by lia.
    done. }
  rewrite union_empty_l_L, size_difference, Hl, size_singleton in Hs.
  - lia.
  - intros x ->%elem_of_singleton. apply elem_of_list_to_set, block_self.
Qed.

(** [nearby_mines] on a board built by [__init__] reads the board
    without error and counts between 0 and 8 mines. *)
Theorem board_nearby_mines_range (h w n : Z) (d : list (nat * nat)) (g : MinesweeperBoard.t)
    (c : cell) :
  MinesweeperBoard.init h w n d = Some g ->
  exists k, MinesweeperBoard.nearby_mines g c = Some k /\ 0 <= k <= 8.
Proof.
  intros H. rewrite (board_nearby_mines_eq h w n d g c H). eexists. split; [reflexivity|].
  set (b := MinesweeperBoard.to_minesweeper g).
  rewrite (nearby_mines_surrounding b (MinesweeperAI.init (Minesweeper.height b)
             (Minesweeper.width b)) c) by done.
  pose proof (surrounding_cells_size
    (MinesweeperAI.init (Minesweeper.height b) (Minesweeper.width b)) c).
  pose proof (subseteq_size (surrounding_cells
    (MinesweeperAI.init (Minesweeper.height b) (Minesweeper.width b)) c ∩ Minesweeper.mines b)
    (surrounding_cells
    (MinesweeperAI.init (Minesweeper.height b) (Minesweeper.width b)) c)
    ltac:(set_solver)).
  lia.
Qed.

(** [won()] compares [mines_found], which starts empty, with the mines:
    right after [__init__] it holds exactly when no mine was asked for. *)
Theorem board_won_init (h w n : Z) (d : list (nat * nat)) (g : MinesweeperBoard.t) :
  MinesweeperBoard.init h w n d = Some g -> (MinesweeperBoard.won g = true <-> n = 0).
Proof.
  intros H. destruct (init_ok h w n d g H) as (_ & _ & Hf & Hn & _).
  unfold MinesweeperBoard.won. rewrite bool_decide_eq_true, Hf. split.
  - intros He. rewrite <- He, size_empty in Hn. lia.
  - intros ->. symmetry. apply size_zero_empty. lia.
Qed.

(** ** Proofs (agent) *)

(** After valid calls, everything the agent knows is true of the board:
    every known mine is a mine, no known safe is, and every sentence
    counts exactly the mines among its cells. *)
Theorem reachable_knowledge_true (b : Minesweeper.t) (st : t) :
  reachable b st ->
  mines st ⊆ Minesweeper.mines b /\ safes st ## Minesweeper.mines b /\
  (forall s, s ∈ knowledge st ->
     Sentence.count s = Z.of_nat (size (Sentence.cells s ∩ Minesweeper.mines b))).
Proof. intros H. exact (reachable_sound b st H). Qed.

Lemma random_choice_in {A} (l : list A) (k : nat) (x : A) :
  random_choice l k = Some x -> x ∈ l.
Proof. unfold random_choice. apply list_elem_of_lookup_2. Qed.

(** After valid calls, [make_safe_move] never returns a mine, nor a
    cell already played. *)
Theorem make_safe_move_not_mine (b : Minesweeper.t) (st : t) (k : nat) (c : cell) :
  reachable b st -> (make_safe_move st k).1 = Some c ->
  (c ∉ Minesweeper.mines b) /\ c ∈ safes st /\ (c ∉ moves_made st).
Proof.
  intros Hr Hm. destruct (reachable_sound b st Hr) as (_ & Hs & _).
  unfold make_safe_move in Hm. case_decide; [done|]. simpl in Hm.
  apply random_choice_in, elem_of_elements in Hm. set_solver.
Qed.

(** [add_knowledge] records the move: [moves_made] gains exactly the
    cell, the cell is a known safe, and the dimensions stay. *)
Theorem add_knowledge_records_move (fuel : nat) (st st' : t) (c : cell) (n : Z) :
  add_knowledge fuel st c n = Some st' ->
  moves_made st' = moves_made st ∪ {[c]} /\ c ∈ safes st' /\
  height st' = height st /\ width st' = width st.
Proof.
  intros H. destruct (add_knowledge_final _ _ _ _ _ H) as (st1 & st2 & H1 & H2 & ->).
  simpl.
  apply (closure_preserved (fun s => moves_made s = moves_made st ∪ {[c]} /\
           c ∈ safes s /\ height s = height st /\ width s = width st)) with fuel st1;
    [| | |by apply add_knowledge_prelude_inv in H1 as (cs & n' & _ & ->);
           simpl; split_and!; [done|set_solver|done|done]|done].
  - intros c' s. unfold mark_mine. simpl. tauto.
  - intros c' s. unfold mark_safe. simpl. set_solver.
  - intros s. done.
Qed.

Lemma build_fold_none_iff (st : t) (l : list cell) (cs : gset cell) (n : Z) :
  NoDup l -> (forall x, x ∈ l -> x ∈ cs) ->
  foldl (build_step st) (Some (cs, n)) l = None <->
  exists x, x ∈ l /\ x ∈ mines st /\ x ∈ safes st.
Proof.
  revert cs n. induction l as [|x l IH]; intros cs n Hnd Hl.
  - simpl. split; [done|]. intros (x & Hx & _). by apply elem_of_nil in Hx.
  - apply NoDup_cons in Hnd as [Hx Hnd].
    change (foldl (build_step st) (build_step st (Some (cs, n)) x) l = None <->
            exists y, y ∈ x :: l /\ y ∈ mines st /\ y ∈ safes st).
    assert (Hxc : x ∈ cs) by (apply Hl; set_solver).
    destruct (decide (x ∈ mines st /\ x ∈ safes st)) as [[Hm Hs]|Hb].
    + assert (E : build_step st (Some (cs, n)) x = None).
      { unfold build_step, py_remove. cbn.
        rewrite decide_True by done. cbn. rewrite decide_True by done. cbn.
        rewrite decide_True by done. cbn. rewrite decide_False by set_solver. done. }
      rewrite E, build_fold_none. split; [|done]. intros _. exists x. set_solver.
    + assert (Hs : exists cs1 n1, build_step st (Some (cs, n)) x = Some (cs1, n1) /\
                                  cs ∖ {[x]} ⊆ cs1).
      { unfold build_step, py_remove. cbn.
        destruct (decide (x ∈ mines st)) as [Hm|Hm]; cbn.
        - rewrite decide_True by done. cbn.
          rewrite decide_False by tauto. do 2 eexists. split; [reflexivity|set_solver].
        - destruct (decide (x ∈ safes st)); cbn.
          + rewrite decide_True by done. cbn. do 2 eexists. split; [reflexivity|set_solver].
          + do 2 eexists. split; [reflexivity|set_solver]. }
      destruct Hs as (cs1 & n1 & -> & Hsub). rewrite IH; [|done|].
      * split; intros (y & Hy & Hym & Hys).
        -- exists y. set_solver.
        -- apply elem_of_cons in Hy as [->|Hy]; [tauto|]. eauto.
      * intros y Hy. apply Hsub. assert (y <> x) by (intros ->; contradiction). set_solver.
Qed.

(** Step 3 of [add_knowledge] raises [KeyError] (a cell removed twice
    from the new sentence) exactly when a cell around [cell] is both a
    known mine and a known safe; the call then never returns. *)
Theorem add_knowledge_key_error (st : t) (c : cell) (n : Z) :
  (add_knowledge_prelude st c n = None <->
   exists x, x ∈ surrounding_cells st c /\ x ∈ mines st /\ x ∈ safes st) /\
  ((exists x, x ∈ surrounding_cells st c /\ x ∈ mines st /\ x ∈ safes st) ->
   forall fuel, add_knowledge fuel st c n = None).
Proof.
  assert (Hp : add_knowledge_prelude st c n = None <->
               exists x, x ∈ surrounding_cells st c /\ x ∈ mines st /\ x ∈ safes st).
  { unfold add_knowledge_prelude, build_sentence. cbv zeta.
    set (st0 := mark_safe c (add_safe c (add_move c st))).
    assert (Hsur : surrounding_cells st0 c = surrounding_cells st c) by reflexivity.
    rewrite Hsur.
    pose proof (build_fold_none_iff st0 (elements (surrounding_cells st c))
                  (surrounding_cells st c) n (NoDup_elements _)) as Hiff.
    destruct (foldl (build_step st0) (Some (surrounding_cells st c, n))
                (elements (surrounding_cells st c))) as [[cs n']|] eqn:E; simpl.
    - split; [done|]. intros (x & Hx & Hm & Hs). exfalso.
      assert (Some (cs, n') = None); [|done]. apply Hiff.
      + intros y Hy. by apply elem_of_elements.
      + exists x. rewrite elem_of_elements. split_and!; [done|done|]. simpl. set_solver.
    - split; [|done]. intros _. destruct Hiff as [Hiff _].
      + intros y Hy. by apply elem_of_elements.
      + destruct (Hiff eq_refl) as (x & Hx & Hm & Hs). apply elem_of_elements in Hx.
        exists x. split_and!; [done|done|].
        pose proof (surrounding_cells_not_self st c x Hx). simpl in Hs. set_solver. }
  split; [exact Hp|]. intros Hx fuel. unfold add_knowledge.
  apply Hp in Hx. by rewrite Hx.
Qed.

Lemma mark_fold_covers (mark : cell -> t -> t) (l : list cell) (stch : t * gset cell) :
  list_to_set l ⊆ (foldl (fun '(st, ch) c => (mark c st, ch ∪ {[c]})) stch l).2.
Proof.
  revert stch. induction l as [|c l IH]; intros [st ch]; simpl; [set_solver|].
  pose proof (mark_fold_grows mark l (mark c st, ch ∪ {[c]})) as Hg. simpl in Hg.
  specialize (IH (mark c st, ch ∪ {[c]})). set_solver.
Qed.

Lemma mark_cells_covers (mark : cell -> t -> t) (stch : t * gset cell) (cs : gset cell) :
  cs ⊆ (mark_cells mark stch cs).2.
Proof.
  unfold mark_cells. pose proof (mark_fold_covers mark (elements cs) stch) as H.
  rewrite list_to_set_elements_L in H. done.
Qed.

Lemma mark_sentence_at_grows (stch : t * gset cell) (i : nat) :
  stch.2 ⊆ (mark_sentence_at stch i).2.
Proof.
  unfold mark_sentence_at. destruct (knowledge stch.1 !! i) as [s|]; [|done]. cbv zeta.
  pose proof (mark_cells_grows mark_mine stch (Sentence.known_mines s)).
  destruct (knowledge _ !! i); [|done]. etrans; [done|apply mark_cells_grows].
Qed.

Lemma foldl_mark_sentence_at_grows (l : list nat) (stch : t * gset cell) :
  stch.2 ⊆ (foldl mark_sentence_at stch l).2.
Proof.
  revert stch. induction l as [|i l IH]; intros stch; simpl; [done|].
  etrans; [apply mark_sentence_at_grows|apply IH].
Qed.

Lemma mark_sentence_at_quiet (stch : t * gset cell) (i : nat) (s : sentence) :
  (mark_sentence_at stch i).2 = ∅ -> knowledge stch.1 !! i = Some s ->
  Sentence.known_mines s = ∅ /\ Sentence.known_safes s = ∅.
Proof.
  unfold mark_sentence_at. intros H Es. rewrite Es in H. cbv zeta in H.
  assert (Hm : (mark_cells mark_mine stch (Sentence.known_mines s)).2 = ∅).
  { destruct (knowledge _ !! i) as [s0|]; [|done].
    pose proof (mark_cells_grows mark_safe (mark_cells mark_mine stch (Sentence.known_mines s))
                  (Sentence.known_safes s0)). set_solver. }
  pose proof (mark_cells_covers mark_mine stch (Sentence.known_mines s)) as Hc.
  pose proof (mark_cells_unchanged _ _ _ Hm) as E. rewrite E, Es in H.
  split; [set_solver|].
  pose proof (mark_cells_covers mark_safe stch (Sentence.known_safes s)). set_solver.
Qed.

Lemma foldl_mark_sentence_at_quiet (l : list nat) (stch : t * gset cell) :
  (foldl mark_sentence_at stch l).2 = ∅ ->
  forall i s, i ∈ l -> knowledge stch.1 !! i = Some s ->
  Sentence.known_mines s = ∅ /\ Sentence.known_safes s = ∅.
Proof.
  revert stch. induction l as [|j l IH]; intros stch H i s Hi Es;
    [by apply elem_of_nil in Hi|].
  simpl in H.
  assert (H1 : (mark_sentence_at stch j).2 = ∅).
  { pose proof (foldl_mark_sentence_at_grows l (mark_sentence_at stch j)). set_solver. }
  pose proof (mark_sentence_at_unchanged _ _ H1) as E. rewrite E in H.
  apply elem_of_cons in Hi as [->|Hi].
  - by eapply mark_sentence_at_quiet.
  - by eapply IH.
Qed.

(** A mark phase that changed no cell found no sentence with a known
    mine or a known safe. *)
Lemma mark_phase_quiet (st : t) :
  (mark_phase st).2 = ∅ ->
  forall s, s ∈ knowledge st -> Sentence.known_mines s = ∅ /\ Sentence.known_safes s = ∅.
Proof.
  unfold mark_phase. intros H s Hs. apply list_elem_of_lookup in Hs as [i Hi].
  apply (foldl_mark_sentence_at_quiet _ _ H i s); [|done].
  apply elem_of_seq. apply lookup_lt_Some in Hi. lia.
Qed.

Lemma closure_exit (fuel : nat) (st st' : t) :
  closure fuel st = Some st' -> exists st0, closure_step st0 = (st', true).
Proof.
  revert st. induction fuel as [|f IH]; intros st H; simpl in H; [done|].
  destruct (closure_step st) as [st1 [|]] eqn:E.
  - injection H as <-. by exists st.
  - by apply (IH st1).
Qed.

Lemma closure_step_exit (st0 st' : t) :
  closure_step st0 = (st', true) ->
  (forall s, s ∈ knowledge st' ->
     Sentence.known_mines s = ∅ /\ Sentence.known_safes s = ∅) /\
  (forall s1 s2, s1 ∈ knowledge st' -> s2 ∈ knowledge st' ->
     Sentence.cells s1 ⊆ Sentence.cells s2 -> Sentence.cells s1 <> Sentence.cells s2 ->
     Sentence.mk (Sentence.cells s2 ∖ Sentence.cells s1)
                 (Sentence.count s2 - Sentence.count s1) ∈ knowledge st').
Proof.
  unfold closure_step.
  destruct (mark_phase st0) as [st1 ch] eqn:Em.
  destruct (derive_phase (knowledge st1)) as [K2 changes] eqn:Ed.
  intros H. injection H as <- Hb. apply bool_decide_eq_true in Hb as [Hch Hc].
  apply size_zero_empty in Hch. subst changes.
  destruct (mark_phase_shrink st0) as (_ & _ & H3). rewrite Em in H3. simpl in H3.
  pose proof (mark_phase_quiet st0) as Hq. rewrite Em in Hq. simpl in Hq.
  specialize (H3 Hch). subst st1.
  destruct (derive_phase_appended (knowledge st0)) as (K' & Ed' & _).
  rewrite Ed in Ed'. injection Ed' as -> HK'.
  destruct K'; [|done]. rewrite app_nil_r in Ed. simpl. rewrite app_nil_r.
  split; [by apply Hq|].
  intros s1 s2 H1 H2 Hsub Hne.
  assert (Hx : Sentence.mk (Sentence.cells s2 ∖ Sentence.cells s1)
                 (Sentence.count s2 - Sentence.count s1) ∈ (derive_phase (knowledge st0)).1).
  { apply derive_phase_elem. right. by exists s1, s2. }
  by rewrite Ed in Hx.
Qed.

Lemma strict_subset_difference (X Y : gset cell) : X ⊆ Y -> X <> Y -> Y ∖ X <> ∅.
Proof.
  intros Hs Hne He. apply Hne. apply set_eq. intros x. split; [set_solver|].
  intros Hy. destruct (decide (x ∈ X)); [done|].
  assert (x ∈ Y ∖ X) by set_solver. rewrite He in H. set_solver.
Qed.

(** When [add_knowledge] returns, the closure loop has reached its fixed
    point: no sentence left names a known mine or a known safe (its count
    is neither 0 nor its number of cells), and the knowledge is closed
    under subset inference. *)
Theorem add_knowledge_fixpoint (fuel : nat) (st st' : t) (c : cell) (n : Z) :
  add_knowledge fuel st c n = Some st' ->
  (forall s, s ∈ knowledge st' ->
     Sentence.count s <> 0 /\ Sentence.count s <> Z.of_nat (size (Sentence.cells s))) /\
  (forall s1 s2, s1 ∈ knowledge st' -> s2 ∈ knowledge st' ->
     Sentence.cells s1 ⊆ Sentence.cells s2 -> Sentence.cells s1 <> Sentence.cells s2 ->
     Sentence.mk (Sentence.cells s2 ∖ Sentence.cells s1)
                 (Sentence.count s2 - Sentence.count s1) ∈ knowledge st').
Proof.
  intros H. destruct (add_knowledge_final _ _ _ _ _ H) as (st1 & st2 & _ & H2 & ->).
  destruct (closure_exit _ _ _ H2) as [st0 E].
  destruct (closure_step_exit _ _ E) as [Hq Hd].
  assert (Hmem : forall s, s ∈ knowledge (set_knowledge (first_occurrences
                   (filter (fun s => Sentence.cells s <> ∅) (knowledge st2))) st2) <->
                 s ∈ knowledge st2 /\ Sentence.cells s <> ∅).
  { intros s. simpl. rewrite <- dedup_first_occurrences, (proj2 (dedup_NoDup_elem _)).
    rewrite list_elem_of_filter. tauto. }
  split.
  - intros s Hs. apply Hmem in Hs as [Hs Hne]. destruct (Hq s Hs) as [Hm Hsf].
    unfold Sentence.known_mines, Sentence.known_safes in *.
    rewrite foldl_add_elements in Hm, Hsf. split.
    + intros Hc. rewrite decide_True in Hsf by done. done.
    + intros Hc. rewrite decide_True in Hm by lia. done.
  - intros s1 s2 Hs1 Hs2 Hsub Hne. apply Hmem in Hs1 as [Hs1 _], Hs2 as [Hs2 _].
    apply Hmem. split; [by apply Hd|]. simpl. by apply strict_subset_difference.
Qed.

Lemma list_remove_elem (x : sentence) (K : list sentence) :
  x ∈ K -> exists K', list_remove x K = Some K'.
Proof.
  induction K as [|y K IH]; intros Hx; [by apply elem_of_nil in Hx|]. simpl.
  destruct (decide (y = x)); [by eexists|].
  apply elem_of_cons in Hx as [->|Hx]; [done|].
  destruct (IH Hx) as [K' ->]. simpl. by eexists.
Qed.

Lemma remove_pass_progress (n i : nat) (K : list sentence) (tr : Z) :
  exists K' tr', remove_pass n i K tr = Some (K', tr') /\
    ((K' = K /\ forall j s, (i <= j < i + n)%nat -> K !! j = Some s -> is_empty s = false) \/
     (length K' < length K)%nat).
Proof.
  revert i K tr. induction n as [|n IH]; intros i K tr; simpl.
  - do 2 eexists. split; [reflexivity|]. left. split; [done|]. intros. lia.
  - destruct (K !! i) as [s|] eqn:Es.
    + destruct (is_empty s) eqn:Ee.
      * destruct (list_remove_elem s K) as [K1 Hr]; [by eapply list_elem_of_lookup_2|].
        rewrite Hr. simpl.
        apply list_remove_split in Hr as (A & B & -> & ->).
        destruct (IH (S i) (A ++ B) (tr + -1)) as (K' & tr' & -> & Hc).
        do 2 eexists. split; [reflexivity|]. right.
        rewrite !length_app in *. simpl.
        destruct Hc as [[-> _]|Hc]; rewrite ?length_app; lia.
      * destruct (IH (S i) K tr) as (K' & tr' & -> & Hc).
        do 2 eexists. split; [reflexivity|].
        destruct Hc as [[-> Hj]|Hc]; [left|by right].
        split; [done|]. intros j s' Hji Hs'.
        destruct (decide (j = i)) as [->|Hne]; [congruence|].
        apply (Hj j); [lia|done].
    + do 2 eexists. split; [reflexivity|]. left. split; [done|].
      intros j s' Hji Hs'. apply lookup_ge_None in Es. apply lookup_lt_Some in Hs'. lia.
Qed.

Lemma remove_empty_loop_terminates (fuel : nat) (K : list sentence) :
  (length K < fuel)%nat -> exists K', remove_empty_loop fuel K (count_empty K) = Some K'.
Proof.
  revert K. induction fuel as [|f IH]; intros K Hf; [lia|]. simpl.
  destruct (decide (count_empty K <> 0)) as [Hne|]; [|by eexists].
  destruct (remove_pass_progress (length K) 0 K (count_empty K)) as (K1 & t1 & Er & Hc).
  rewrite Er. simpl. apply remove_pass_inv in Er as [-> _]; [|done].
  destruct Hc as [[-> Hj]|Hc].
  - exfalso. apply Hne. rewrite count_empty_spec.
    destruct (filter (fun s => Sentence.cells s = ∅) K) as [|s l] eqn:E; [done|].
    assert (Hs : s ∈ filter (fun s => Sentence.cells s = ∅) K) by (rewrite E; set_solver).
    apply list_elem_of_filter in Hs as [Hc Hs]. apply list_elem_of_lookup in Hs as [j Hjs].
    pose proof (lookup_lt_Some _ _ _ Hjs).
    specialize (Hj j s ltac:(lia) Hjs). apply is_empty_spec in Hc. congruence.
  - apply IH. lia.
Qed.

Lemma closure_fuel_mono (fuel fuel' : nat) (st st' : t) :
  closure fuel st = Some st' -> (fuel <= fuel')%nat -> closure fuel' st = Some st'.
Proof.
  revert fuel' st. induction fuel as [|f IH]; intros fuel' st H Hle; simpl in H; [done|].
  destruct fuel' as [|f']; [lia|]. simpl.
  destruct (closure_step st) as [st1 [|]]; [done|]. apply IH; [done|lia].
Qed.

(** After valid calls, a valid call of [add_knowledge] returns (raises
    no exception and leaves both while loops) and the game can go on
    from the new agent. *)
Theorem add_knowledge_returns (b : Minesweeper.t) (st : t) (c : cell) (n : Z) :
  reachable b st -> valid_call b st c n ->
  exists fuel st', add_knowledge fuel st c n = Some st' /\ reachable b st'.
Proof.
  intros Hr Hv. pose proof (reachable_sound b st Hr) as Hs.
  destruct (prelude_success b st c n Hs (proj1 (proj2 (proj2 (proj2 Hv))))) as [st1 H1].
  pose proof (sound_prelude b st st1 c n Hs Hv H1) as Hs1.
  destruct (closure_terminates b st1 Hs1) as (f & st2 & H2).
  set (fuel := Nat.max f (S (length (knowledge st2)))).
  destruct (remove_empty_loop_terminates fuel (knowledge st2)) as [K HK]; [lia|].
  assert (Ha : add_knowledge fuel st c n = Some (set_knowledge (dedup K) st2)).
  { unfold add_knowledge. rewrite H1. simpl.
    rewrite (closure_fuel_mono f fuel st1 st2 H2) by lia. simpl. by rewrite HK. }
  exists fuel, (set_knowledge (dedup K) st2). split; [done|].
  by eapply reachable_add.
Qed.

(** A true sentence gives only right answers: its known mines are mines,
    its known safes are not, and marking a mine as a mine or a safe cell
    as safe keeps it true. *)
Theorem sentence_true_inference (B : gset cell) (s : sentence) (c : cell) :
  sentence_true B s ->
  Sentence.known_mines s ⊆ B /\ Sentence.known_safes s ## B /\
  (c ∈ B -> sentence_true B (Sentence.mark_mine c s)) /\
  (c ∉ B -> sentence_true B (Sentence.mark_safe c s)).
Proof.
  unfold sentence_true. intros Ht. split_and!.
  - unfold Sentence.known_mines. rewrite foldl_add_elements.
    case_decide as Hc; [|set_solver].
    assert (Heq : Sentence.cells s ∩ B = Sentence.cells s).
    { apply set_subseteq_size_eq; [set_solver|]. pose proof (subseteq_size _ _
        (intersection_subseteq_l (Sentence.cells s) B)). lia. }
    set_solver.
  - unfold Sentence.known_safes. rewrite foldl_add_elements.
    case_decide as Hc; [|set_solver].
    assert (H0 : size (Sentence.cells s ∩ B) = 0%nat) by lia.
    apply size_empty_inv in H0. set_solver.
  - intros Hc. unfold Sentence.mark_mine. case_decide as Hin; [|done]. simpl.
    assert (E : Sentence.cells s ∩ B = {[c]} ∪ ((Sentence.cells s ∖ {[c]}) ∩ B)).
    { apply set_eq. intros x. set_unfold.
      split; [intros [? ?]; destruct (decide (x = c)); tauto|].
      intros [->|[[? ?] ?]]; auto. }
    rewrite E, size_union, size_singleton in Ht by set_solver. lia.
  - intros Hc. unfold Sentence.mark_safe. case_decide as Hin; [|done]. simpl.
    rewrite Ht. do 2 f_equal. set_solver.
Qed.

Lemma sentence_marks_commute (c c' : cell) (s : sentence) :
  Sentence.mark_mine c (Sentence.mark_mine c' s) = Sentence.mark_mine c' (Sentence.mark_mine c s) /\
  Sentence.mark_safe c (Sentence.mark_safe c' s) = Sentence.mark_safe c' (Sentence.mark_safe c s) /\
  (c <> c' ->
   Sentence.mark_mine c (Sentence.mark_safe c' s) = Sentence.mark_safe c' (Sentence.mark_mine c s)).
Proof.
  destruct s as [cs n]. unfold Sentence.mark_mine, Sentence.mark_safe. simpl.
  split_and!; [| |intros Hne];
    repeat (case_decide; simpl in *); try done; try set_solver;
    f_equal; try lia; set_solver.
Qed.

(** The agent's [mark_mine] and [mark_safe] commute: marking two mines,
    or two safe cells, gives the same agent in either order, and so does
    marking a mine and a different safe cell. *)
Theorem ai_marks_commute (c c' : cell) (st : t) :
  mark_mine c (mark_mine c' st) = mark_mine c' (mark_mine c st) /\
  mark_safe c (mark_safe c' st) = mark_safe c' (mark_safe c st) /\
  (c <> c' -> mark_mine c (mark_safe c' st) = mark_safe c' (mark_mine c st)).
Proof.
  unfold mark_mine, mark_safe. simpl. rewrite !map_map. split_and!; [| |intros Hne];
    f_equal; try set_solver; apply map_ext; intros s; by apply sentence_marks_commute.
Qed.








Lemma foldl_filter_bounds (c : cell) (h w : Z) (P : list cell) (acc : gset cell) (x : cell) :
  x ∈ foldl (fun acc p => if decide (p = c) then acc
          else if decide (0 <= p.1 < h /\ 0 <= p.2 < w) then acc ∪ {[p]} else acc) acc P ->
  x ∈ acc \/ (0 <= x.1 < h /\ 0 <= x.2 < w).
Proof.
  revert acc. induction P as [|p P IH]; intros acc Hx; simpl in Hx; [by left|].
  destruct (decide (p = c)); [by apply IH|].
  destruct (decide (0 <= p.1 < h /\ 0 <= p.2 < w)); [|by apply IH].
  destruct (IH _ Hx) as [Hx'|]; [|by right].
  apply elem_of_union in Hx' as [| ->%elem_of_singleton]; [by left|by right].
Qed.

Lemma surrounding_cells_on_board (st : t) (c x : cell) :
  x ∈ surrounding_cells st c -> on_board st x.
Proof.
  rewrite surrounding_cells_block. intros Hx.
  apply foldl_filter_bounds in Hx as [Hx|Hx]; [set_solver|done].
Qed.

Lemma kob_mark_mine (c : cell) (st : t) :
  on_board st c -> knowledge_on_board st -> knowledge_on_board (mark_mine c st).
Proof.
  intros Hc [Hm Hk]. unfold mark_mine, on_board in *. simpl. split.
  - intros x Hx. apply elem_of_union in Hx as [Hx|Hx]; [by apply Hm|].
    apply elem_of_singleton in Hx. by subst x.
  - intros s x Hs Hx. apply elem_of_map in Hs as [s0 [-> Hs0]].
    unfold Sentence.mark_mine in Hx. case_decide; simpl in Hx; [|by apply (Hk s0)].
    apply (Hk s0); [done|set_solver].
Qed.

Lemma kob_mark_safe (c : cell) (st : t) :
  knowledge_on_board st -> knowledge_on_board (mark_safe c st).
Proof.
  intros [Hm Hk]. unfold mark_safe, on_board in *. simpl. split; [done|].
  intros s x Hs Hx. apply elem_of_map in Hs as [s0 [-> Hs0]].
  unfold Sentence.mark_safe in Hx. case_decide; simpl in Hx; [|by apply (Hk s0)].
  apply (Hk s0); [done|set_solver].
Qed.

Lemma kob_mark_sentence_at (stch : t * gset cell) (i : nat) :
  knowledge_on_board stch.1 -> knowledge_on_board (mark_sentence_at stch i).1 /\
  height (mark_sentence_at stch i).1 = height stch.1 /\
  width (mark_sentence_at stch i).1 = width stch.1.
Proof.
  intros Hp. unfold mark_sentence_at.
  destruct (knowledge stch.1 !! i) as [s|] eqn:Es; [|done]. cbv zeta.
  set (h0 := height stch.1). set (w0 := width stch.1).
  assert (Hs : forall x, x ∈ Sentence.cells s -> 0 <= x.1 < h0 /\ 0 <= x.2 < w0).
  { intros x Hx. apply (proj2 Hp s); [by eapply list_elem_of_lookup_2|done]. }
  assert (H1 : (fun st => knowledge_on_board st /\ height st = h0 /\ width st = w0)
                 (mark_cells mark_mine stch (Sentence.known_mines s)).1).
  { apply mark_cells_preserved_in; [|done]. intros c st Hc (Hst & Hh & Hw).
    unfold mark_mine at 2 3. simpl. split_and!; [|done|done].
    apply kob_mark_mine; [|done]. unfold on_board. rewrite Hh, Hw.
    apply Hs. by apply known_mines_subset. }
  destruct (knowledge (mark_cells mark_mine stch (Sentence.known_mines s)).1 !! i)
    as [s'|]; [|exact H1].
  apply (mark_cells_preserved_in
           (fun st => knowledge_on_board st /\ height st = h0 /\ width st = w0)); [|done].
  intros c st _ (Hst & Hh & Hw). split_and!; [by apply kob_mark_safe|done|done].
Qed.

Lemma kob_mark_phase (st : t) :
  knowledge_on_board st -> knowledge_on_board (mark_phase st).1 /\
  height (mark_phase st).1 = height st /\ width (mark_phase st).1 = width st.
Proof.
  intros Hp. unfold mark_phase. generalize (seq 0 (length (knowledge st))) as l. intros l.
  cut (forall stch, knowledge_on_board stch.1 -> height stch.1 = height st ->
         width stch.1 = width st ->
         knowledge_on_board (foldl mark_sentence_at stch l).1 /\
         height (foldl mark_sentence_at stch l).1 = height st /\
         width (foldl mark_sentence_at stch l).1 = width st); [intros H; by apply H|].
  induction l as [|i l IH]; intros stch H1 H2 H3; simpl; [done|].
  destruct (kob_mark_sentence_at stch i H1) as (H4 & H5 & H6). apply IH; congruence.
Qed.

Lemma kob_closure (fuel : nat) (st st' : t) :
  knowledge_on_board st -> closure fuel st = Some st' -> knowledge_on_board st'.
Proof.
  revert st. induction fuel as [|f IH]; intros st Hp Hc; simpl in Hc; [done|].
  assert (H1 : knowledge_on_board (closure_step st).1).
  { unfold closure_step. destruct (kob_mark_phase st Hp) as (Hk & Hh & Hw).
    destruct (mark_phase st) as [st1 ch]. simpl in *.
    destruct (derive_phase (knowledge st1)) as [K2 m] eqn:Ed. simpl.
    destruct Hk as [Hm Hk]. split; [done|]. intros s x Hs Hx. simpl in Hs.
    assert (Hs' : s ∈ (derive_phase (knowledge st1)).1) by by rewrite Ed.
    apply derive_phase_elem in Hs' as [Hs'|(s1 & s2 & _ & H2 & _ & _ & ->)]; [by eapply Hk|].
    simpl in Hx. apply (Hk s2); [done|set_solver]. }
  destruct (closure_step st) as [st1 [|]]; simpl in H1; [by injection Hc as <-|].
  by apply (IH st1).
Qed.

(** [add_knowledge] keeps the agent on its board: when every known mine
    and every cell of a sentence is on the board before the call, it is
    so after it, whatever [cell] and [count] are. *)
Theorem add_knowledge_on_board (fuel : nat) (st st' : t) (c : cell) (n : Z) :
  knowledge_on_board st -> add_knowledge fuel st c n = Some st' ->
  knowledge_on_board st'.
Proof.
  intros Hp Ha. destruct (add_knowledge_final _ _ _ _ _ Ha) as (st1 & st2 & H1 & H2 & ->).
  assert (Hp1 : knowledge_on_board st1).
  { apply add_knowledge_prelude_inv in H1 as (cs & n' & Hb & ->).
    unfold build_sentence in Hb. apply build_fold_some in Hb as [-> _].
    destruct (kob_mark_safe c (add_safe c (add_move c st))) as [Hm Hk];
      [by destruct Hp; split|].
    split; [done|]. intros s x Hs Hx. simpl in Hs.
    apply elem_of_app in Hs as [Hs|Hs]; [by eapply Hk|].
    apply list_elem_of_singleton in Hs as ->. simpl in Hx.
    apply elem_of_difference in Hx as [Hx _]. by eapply surrounding_cells_on_board. }
  destruct (kob_closure _ _ _ Hp1 H2) as [Hm Hk]. split; [done|].
  intros s x Hs Hx. simpl in Hs.
  rewrite <- dedup_first_occurrences in Hs.
  apply (proj2 (dedup_NoDup_elem _)), list_elem_of_filter in Hs as [_ Hs].
  by eapply Hk.
Qed.

(** ** Instances of the extra properties with hypotheses *)

Lemma board_init_spec_witness :
  exists g, MinesweeperBoard.init 2 3 2 [(0, 0); (2, 3); (1, 1); (5, 4)]%nat = Some g /\
  MinesweeperBoard.height g = 2 /\ MinesweeperBoard.width g = 3 /\
  MinesweeperBoard.mines_found g = ∅ /\
  Z.of_nat (size (MinesweeperBoard.mines g)) = 2 /\
  (forall p, p ∈ MinesweeperBoard.mines g -> 0 <= p.1 < 2 /\ 0 <= p.2 < 3) /\
  (forall i j, 0 <= i < 2 -> 0 <= j < 3 ->
     MinesweeperBoard.is_mine g (i, j) =
     Some (bool_decide ((i, j) ∈ MinesweeperBoard.mines g))).
Proof.
  destruct (MinesweeperBoard.init 2 3 2 [(0, 0); (2, 3); (1, 1); (5, 4)]%nat) as [g|] eqn:E;
    [|vm_compute in E; discriminate].
  exists g. split; [reflexivity|].
  exact (board_init_spec 2 3 2 [(0, 0); (2, 3); (1, 1); (5, 4)]%nat g E).
Defined.


Lemma board_is_mine_index_witness :
  exists g, MinesweeperBoard.init 2 3 2 [(0, 0); (2, 3); (1, 1); (5, 4)]%nat = Some g /\
  (-2 <= -1 < 0 -> MinesweeperBoard.is_mine g (-1, -3) = MinesweeperBoard.is_mine g (2 + -1, -3)) /\
  (0 <= -1 < 2 -> -3 <= -3 < 0 ->
     MinesweeperBoard.is_mine g (-1, -3) = MinesweeperBoard.is_mine g (-1, 3 + -3)) /\
  (-1 < -2 \/ 2 <= -1 -> MinesweeperBoard.is_mine g (-1, -3) = None) /\
  (0 <= -1 < 2 -> -3 < -3 \/ 3 <= -3 -> MinesweeperBoard.is_mine g (-1, -3) = None).
Proof.
  destruct (MinesweeperBoard.init 2 3 2 [(0, 0); (2, 3); (1, 1); (5, 4)]%nat) as [g|] eqn:E;
    [|vm_compute in E; discriminate].
  exists g. split; [reflexivity|].
  exact (board_is_mine_index 2 3 2 [(0, 0); (2, 3); (1, 1); (5, 4)]%nat g (-1) (-3) E).
Defined.

Lemma board_nearby_mines_witness :
  exists g, MinesweeperBoard.init 2 3 2 [(0, 0); (2, 3); (1, 1); (5, 4)]%nat = Some g /\
  MinesweeperBoard.nearby_mines g (0, 1) =
  Some (Minesweeper.nearby_mines (MinesweeperBoard.to_minesweeper g) (0, 1)).
Proof.
  destruct (MinesweeperBoard.init 2 3 2 [(0, 0); (2, 3); (1, 1); (5, 4)]%nat) as [g|] eqn:E;
    [|vm_compute in E; discriminate].
  exists g. split; [reflexivity|].
  exact (board_nearby_mines 2 3 2 [(0, 0); (2, 3); (1, 1); (5, 4)]%nat g (0, 1) E).
Defined.

Lemma board_nearby_mines_range_witness :
  exists g, MinesweeperBoard.init 2 3 2 [(0, 0); (2, 3); (1, 1); (5, 4)]%nat = Some g /\
  exists k, MinesweeperBoard.nearby_mines g (0, 1) = Some k /\ 0 <= k <= 8.
Proof.
  destruct (MinesweeperBoard.init 2 3 2 [(0, 0); (2, 3); (1, 1); (5, 4)]%nat) as [g|] eqn:E;
    [|vm_compute in E; discriminate].
  exists g. split; [reflexivity|].
  exact (board_nearby_mines_range 2 3 2 [(0, 0); (2, 3); (1, 1); (5, 4)]%nat g (0, 1) E).
Defined.

Lemma board_won_init_witness :
  exists g, MinesweeperBoard.init 2 3 2 [(0, 0); (2, 3); (1, 1); (5, 4)]%nat = Some g /\
  (MinesweeperBoard.won g = true <-> 2 = 0).
Proof.
  destruct (MinesweeperBoard.init 2 3 2 [(0, 0); (2, 3); (1, 1); (5, 4)]%nat) as [g|] eqn:E;
    [|vm_compute in E; discriminate].
  exists g. split; [reflexivity|].
  exact (board_won_init 2 3 2 [(0, 0); (2, 3); (1, 1); (5, 4)]%nat g E).
Defined.


Lemma ex_reachable (st : t) :
  add_knowledge 10 (init 1 3) (0, 0) 0 = Some st -> reachable ex_board st.
Proof.
  intros E. apply (reachable_add ex_board (init 1 3) st (0, 0) 0 10).
  - apply (reachable_init ex_board).
  - unfold valid_call. split_and!; [reflexivity|reflexivity|set_solver|
      vm_compute; intros H; inversion H|vm_compute; reflexivity].
  - exact E.
Qed.

Lemma reachable_knowledge_true_witness :
  exists st, add_knowledge 10 (init 1 3) (0, 0) 0 = Some st /\ reachable ex_board st /\
  mines st ⊆ Minesweeper.mines ex_board /\ safes st ## Minesweeper.mines ex_board /\
  (forall s, s ∈ knowledge st ->
     Sentence.count s = Z.of_nat (size (Sentence.cells s ∩ Minesweeper.mines ex_board))).
Proof.
  destruct (add_knowledge 10 (init 1 3) (0, 0) 0) as [st|] eqn:E;
    [|vm_compute in E; discriminate].
  pose proof (ex_reachable st E) as Hr.
  exists st. split_and!; [reflexivity|exact Hr|..];
    [exact (proj1 (reachable_knowledge_true ex_board st Hr))
    |exact (proj1 (proj2 (reachable_knowledge_true ex_board st Hr)))
    |exact (proj2 (proj2 (reachable_knowledge_true ex_board st Hr)))].
Defined.

Lemma make_safe_move_not_mine_witness :
  exists st, add_knowledge 10 (init 1 3) (0, 0) 0 = Some st /\ reachable ex_board st /\
  (make_safe_move st 0).1 = Some (0, 1) /\
  ((0, 1) ∉ Minesweeper.mines ex_board) /\ (0, 1) ∈ safes st /\ ((0, 1) ∉ moves_made st).
Proof.
  assert (Hm : match add_knowledge 10 (init 1 3) (0, 0) 0 with
               | Some s => (make_safe_move s 0).1 | None => None end = Some (0, 1))
    by (vm_compute; reflexivity).
  destruct (add_knowledge 10 (init 1 3) (0, 0) 0) as [st|] eqn:E; [|discriminate].
  pose proof (ex_reachable st E) as Hr.
  exists st. split_and!; [reflexivity|exact Hr|exact Hm|..];
    [exact (proj1 (make_safe_move_not_mine ex_board st 0 (0, 1) Hr Hm))
    |exact (proj1 (proj2 (make_safe_move_not_mine ex_board st 0 (0, 1) Hr Hm)))
    |exact (proj2 (proj2 (make_safe_move_not_mine ex_board st 0 (0, 1) Hr Hm)))].
Defined.

Lemma add_knowledge_records_move_witness :
  exists st', add_knowledge 10 (init 1 3) (0, 0) 0 = Some st' /\
  moves_made st' = moves_made (init 1 3) ∪ {[(0, 0)]} /\ (0, 0) ∈ safes st' /\
  height st' = height (init 1 3) /\ width st' = width (init 1 3).
Proof.
  destruct (add_knowledge 10 (init 1 3) (0, 0) 0) as [st|] eqn:E;
    [|vm_compute in E; discriminate].
  exists st. split; [reflexivity|].
  exact (add_knowledge_records_move 10 (init 1 3) st (0, 0) 0 E).
Defined.

Lemma add_knowledge_fixpoint_witness :
  exists st', add_knowledge 10 (init 3 3) (1, 1) 1 = Some st' /\
  (forall s, s ∈ knowledge st' ->
     Sentence.count s <> 0 /\ Sentence.count s <> Z.of_nat (size (Sentence.cells s))) /\
  (forall s1 s2, s1 ∈ knowledge st' -> s2 ∈ knowledge st' ->
     Sentence.cells s1 ⊆ Sentence.cells s2 -> Sentence.cells s1 <> Sentence.cells s2 ->
     Sentence.mk (Sentence.cells s2 ∖ Sentence.cells s1)
                 (Sentence.count s2 - Sentence.count s1) ∈ knowledge st').
Proof.
  destruct (add_knowledge 10 (init 3 3) (1, 1) 1) as [st|] eqn:E;
    [|vm_compute in E; discriminate].
  exists st. split; [reflexivity|].
  exact (add_knowledge_fixpoint 10 (init 3 3) st (1, 1) 1 E).
Defined.

Lemma add_knowledge_returns_witness :
  reachable ex_board (init 1 3) /\ valid_call ex_board (init 1 3) (0, 0) 0 /\
  exists fuel st', add_knowledge fuel (init 1 3) (0, 0) 0 = Some st' /\ reachable ex_board st'.
Proof.
  assert (Hr : reachable ex_board (init 1 3)) by exact (reachable_init ex_board).
  assert (Hv : valid_call ex_board (init 1 3) (0, 0) 0).
  { unfold valid_call. split_and!; [reflexivity|reflexivity|set_solver|
      vm_compute; intros H; inversion H|vm_compute; reflexivity]. }
  split; [exact Hr|]. split; [exact Hv|].
  exact (add_knowledge_returns ex_board (init 1 3) (0, 0) 0 Hr Hv).
Defined.

Lemma sentence_true_inference_witness :
  sentence_true {[(0, 0); (0, 2)]} ex_S2 /\
  Sentence.known_mines ex_S2 ⊆ {[(0, 0); (0, 2)]} /\
  Sentence.known_safes ex_S2 ## {[(0, 0); (0, 2)]} /\
  ((0, 2) ∈ ({[(0, 0); (0, 2)]} : gset cell) ->
     sentence_true {[(0, 0); (0, 2)]} (Sentence.mark_mine (0, 2) ex_S2)) /\
  ((0, 2) ∉ ({[(0, 0); (0, 2)]} : gset cell) ->
     sentence_true {[(0, 0); (0, 2)]} (Sentence.mark_safe (0, 2) ex_S2)).
Proof.
  assert (Ht : sentence_true {[(0, 0); (0, 2)]} ex_S2) by (vm_compute; reflexivity).
  split; [exact Ht|].
  exact (sentence_true_inference {[(0, 0); (0, 2)]} ex_S2 (0, 2) Ht).
Defined.

Lemma add_knowledge_on_board_witness :
  knowledge_on_board (init 1 3) /\
  exists st', add_knowledge 10 (init 1 3) (0, 0) 0 = Some st' /\ knowledge_on_board st'.
Proof.
  assert (H0 : knowledge_on_board (init 1 3)).
  { split; simpl; [set_solver|]. intros s x Hs. by apply elem_of_nil in Hs. }
  split; [exact H0|].
  destruct (add_knowledge 10 (init 1 3) (0, 0) 0) as [st|] eqn:E;
    [|vm_compute in E; discriminate].
  exists st. split; [reflexivity|].
  exact (add_knowledge_on_board 10 (init 1 3) st (0, 0) 0 H0 E).
Defined.
